(** * Order-book streaming client: the WebSocket session and its JSON-RPC
      subscription

    A shallow embedding of [WebSocketClient] (run, the six completion
    handlers, [subscribe_to_orderbook], [read], [fail]) and of [main], with
    the io_context modelled as a loop that delivers one completion at a time
    to the handler bound to the outstanding operation.

    The JSON values and the compact writer are those of jsoncpp, which the
    program links against: an object keeps its members in a [std::map], so
    they are enumerated in key order, and [Json::FastWriter::write] ends the
    document with a line feed. *)

From Stdlib Require Import ZArith NArith List String Ascii Bool Lia DecimalString.
Import ListNotations.
Open Scope string_scope.

(* ------------------------------------------------------------------ *)
(** ** Text helpers *)

Definition dquote : ascii := "034"%char.
Definition backslash : ascii := "092"%char.

(** Expected JSON texts are written with apostrophes where the wire text has
    double quotes; [wire] puts the double quotes back. *)
Fixpoint wire (s : string) : string :=
  match s with
  | EmptyString => EmptyString
  | String c r => String (if Ascii.eqb c "'"%char then dquote else c) (wire r)
  end.

(** [std::endl] and the "\n" of the C++ literals. *)
Definition LF : string := String "010"%char EmptyString.

(** [std::to_string] on an unsigned value. *)
Definition to_string (n : N) : string := NilEmpty.string_of_uint (N.to_uint n).

(* ------------------------------------------------------------------ *)
(** ** jsoncpp values and the compact writer *)

Module Json.

(** [Json::Value], for the kinds the subscription can hold.  Object members
    are a [std::map] keyed by name: an association list kept in key order.
    [realValue] is left out: the program never builds one, and the inbound
    side goes through the reader, whose interface is given below. *)
#[warnings="-register-all"]
Inductive Value : Type :=
| nullValue
| intValue (n : Z)
| uintValue (n : N)
| stringValue (s : string)
| booleanValue (b : bool)
| arrayValue (elems : list Value)
| objectValue (members : list (string * Value)).

Definition ObjectValues := list (string * Value).

(** [std::map::find]. *)
Fixpoint map_find (k : string) (m : ObjectValues) : option Value :=
  match m with
  | [] => None
  | (k', v) :: rest => if String.eqb k k' then Some v else map_find k rest
  end.

(** Insert-or-replace in key order ([CZString::operator<] is a byte-wise
    comparison, the shorter string first on a common prefix). *)
Fixpoint map_put (k : string) (v : Value) (m : ObjectValues) : ObjectValues :=
  match m with
  | [] => [(k, v)]
  | (k', v') :: rest =>
      match String.compare k k' with
      | Lt => (k, v) :: m
      | Eq => (k, v) :: rest
      | Gt => (k', v') :: map_put k v rest
      end
  end.

(** A call that jsoncpp guards with an assertion either yields a value or
    throws [Json::LogicError] with a message. *)
Inductive checked : Type :=
| Ok (v : Value)
| LogicError (what : string).

(** [Value::operator[](key)] followed by an update of the referenced member.
    A null value becomes an object; an absent member starts as null; any
    other kind fails the assertion of [resolveReference]. *)
Definition at_key (k : string) (f : Value -> checked) (v : Value) : checked :=
  let update m :=
    let old := match map_find k m with Some x => x | None => nullValue end in
    match f old with
    | Ok new => Ok (objectValue (map_put k new m))
    | LogicError what => LogicError what
    end in
  match v with
  | nullValue => update []
  | objectValue m => update m
  | _ => LogicError "in Json::Value::resolveReference(key, end): requires objectValue"
  end.

(** Assignment through a reference: [ref = x]. *)
Definition assign (x : Value) : Value -> checked := fun _ => Ok x.

(** [Value::append]: a null value becomes an array. *)
Definition append (x : Value) (v : Value) : checked :=
  match v with
  | nullValue => Ok (arrayValue [x])
  | arrayValue l => Ok (arrayValue (l ++ [x]))
  | _ => LogicError "in Json::Value::append: requires arrayValue"
  end.

(** *** String quoting *)

Definition hex_digit (n : N) : ascii :=
  match n with
  | 0 => "0" | 1 => "1" | 2 => "2" | 3 => "3" | 4 => "4" | 5 => "5"
  | 6 => "6" | 7 => "7" | 8 => "8" | 9 => "9" | 10 => "a" | 11 => "b"
  | 12 => "c" | 13 => "d" | 14 => "e" | _ => "f"
  end%N%char.

(** One byte of a string inside the quotes.  Bytes from 0x80 up are copied
    as they are; jsoncpp releases differ on them (some re-encode them as
    \u escapes) and nothing below depends on them. *)
Definition quoted_char (c : ascii) : string :=
  let n := N_of_ascii c in
  let esc x := String backslash (String x EmptyString) in
  if Ascii.eqb c dquote then esc dquote
  else if Ascii.eqb c backslash then esc backslash
  else if (n =? 8)%N then esc "b"%char
  else if (n =? 12)%N then esc "f"%char
  else if (n =? 10)%N then esc "n"%char
  else if (n =? 13)%N then esc "r"%char
  else if (n =? 9)%N then esc "t"%char
  else if (n <? 32)%N then
    String backslash
      (String "u" (String "0" (String "0"
         (String (hex_digit (n / 16)) (String (hex_digit (n mod 16)) EmptyString)))))
  else String c EmptyString.

Fixpoint quoted_body (s : string) : string :=
  match s with
  | EmptyString => EmptyString
  | String c r => quoted_char c ++ quoted_body r
  end.

Definition valueToQuotedString (s : string) : string :=
  String dquote (quoted_body s ++ String dquote EmptyString).

(** [valueToString] on integers: plain decimal. *)
Definition valueToString_int (n : Z) : string := NilEmpty.string_of_int (Z.to_int n).
Definition valueToString_uint (n : N) : string := NilEmpty.string_of_uint (N.to_uint n).

(** *** [FastWriter] *)

(** [FastWriter::writeValue] with the default options: no spaces, a comma
    before every element but the first. *)
Fixpoint writeValue (v : Value) : string :=
  match v with
  | nullValue => "null"
  | intValue n => valueToString_int n
  | uintValue n => valueToString_uint n
  | stringValue s => valueToQuotedString s
  | booleanValue b => if b then "true" else "false"
  | arrayValue l =>
      "[" ++
      (fix elems (first : bool) (l : list Value) : string :=
         match l with
         | [] => ""
         | x :: r => (if first then "" else ",") ++ writeValue x ++ elems false r
         end) true l
      ++ "]"
  | objectValue m =>
      "{" ++
      (fix members (first : bool) (m : list (string * Value)) : string :=
         match m with
         | [] => ""
         | p :: r =>
             (if first then "" else ",")
               ++ valueToQuotedString (fst p) ++ ":" ++ writeValue (snd p)
               ++ members false r
         end) true m
      ++ "}"
  end.

(** [FastWriter::write]: the document, then a line feed
    ([omitEndingLineFeed_] is off unless asked for). *)
Definition FastWriter_write (root : Value) : string := writeValue root ++ LF.

(** Read access used to state what a request holds. *)
Definition member (k : string) (v : Value) : option Value :=
  match v with
  | objectValue m => map_find k m
  | _ => None
  end.

End Json.

(** The [Json::Value] that [subscribe_to_orderbook] builds, statement by
    statement. *)
Definition subscription_value (instrument_ : string) : Json.checked :=
  match Json.at_key "jsonrpc" (Json.assign (Json.stringValue "2.0")) Json.nullValue with
  | Json.LogicError what => Json.LogicError what
  | Json.Ok s1 =>
  match Json.at_key "id" (Json.assign (Json.intValue 1)) s1 with
  | Json.LogicError what => Json.LogicError what
  | Json.Ok s2 =>
  match Json.at_key "method" (Json.assign (Json.stringValue "public/subscribe")) s2 with
  | Json.LogicError what => Json.LogicError what
  | Json.Ok s3 =>
      Json.at_key "params"
        (Json.at_key "channels"
           (Json.append (Json.stringValue ("book." ++ instrument_ ++ ".100ms"))))
        s3
  end end end.

(* ------------------------------------------------------------------ *)
(** ** The session *)

(** [beast::error_code]: [if (ec)] holds when the value is not zero. *)
Record error_code : Type := { ec_value : Z; ec_message : string }.

Definition failed (ec : error_code) : bool := negb (ec_value ec =? 0)%Z.

(** A resolved endpoint; the port is an unsigned 16-bit number. *)
Record endpoint : Type := { ep_address : string; ep_port : N }.

(** The completion handler bound to the operation that is outstanding. *)
Inductive bound_handler : Type :=
| OnResolve | OnConnect | OnSslHandshake | OnHandshake | OnWrite | OnRead.

(** What the io_context holds for the session: nothing yet ([run] has not
    been called), one outstanding operation with its handler, or nothing any
    more (the last handler returned without starting an operation). *)
Inductive control_state : Type :=
| Fresh
| Awaiting (h : bound_handler)
| Done.

(** Asynchronous operations started on [resolver_] and [ws_].  [async_read]
    records what [buffer_] holds when the read is started. *)
Inductive operation : Type :=
| async_resolve (host port : string)
| async_connect (results : list endpoint)
| ssl_async_handshake
| ws_async_handshake (host target : string)
| async_write (message : string)
| async_read (buffered : string).

(** Steps of the [try] block of [main] that come before [run]. *)
Inductive setup_step : Type :=
| NewIoContext | NewSslContext | SetVerifyMode | SetDefaultVerifyPaths | MakeClient.

(** [beast::role_type], the argument of [timeout::suggested]. *)
Inductive role_type : Type :=
| client
| server.

(** Everything the program does that can be seen from outside, in order.
    [Complete] marks the io_context calling a handler with this error code;
    [SetSuggestedTimeouts role] is
    [ws_.set_option(timeout::suggested(role))]. *)
Inductive event : Type :=
| Setup (st : setup_step)
| Cout (text : string)
| Cerr (text : string)
| ExpiresAfter (seconds : Z)
| ExpiresNever
| SetSuggestedTimeouts (role : role_type)
| Issue (op : operation)
| Complete (h : bound_handler) (ec : error_code).

(** The members of the class that hold data, as declared.  [resolver_] and
    [ws_] are handles: what is done through them is in [log], and [control]
    is the operation the io_context has outstanding for the session. *)
Record WebSocketClient : Type := {
  buffer_ : string;
  host_ : string;
  instrument_ : string;
  control : control_state;
  log : list event
}.

Definition with_buffer (b : string) (s : WebSocketClient) : WebSocketClient :=
  {| buffer_ := b; host_ := host_ s; instrument_ := instrument_ s;
     control := control s; log := log s |}.

Definition with_host (h : string) (s : WebSocketClient) : WebSocketClient :=
  {| buffer_ := buffer_ s; host_ := h; instrument_ := instrument_ s;
     control := control s; log := log s |}.

Definition with_instrument (i : string) (s : WebSocketClient) : WebSocketClient :=
  {| buffer_ := buffer_ s; host_ := host_ s; instrument_ := i;
     control := control s; log := log s |}.

Definition with_control (c : control_state) (s : WebSocketClient) : WebSocketClient :=
  {| buffer_ := buffer_ s; host_ := host_ s; instrument_ := instrument_ s;
     control := c; log := log s |}.

Definition emit (e : event) (s : WebSocketClient) : WebSocketClient :=
  {| buffer_ := buffer_ s; host_ := host_ s; instrument_ := instrument_ s;
     control := control s; log := log s ++ [e] |}.

(** Start [op] with [h] bound as its completion handler. *)
Definition start (op : operation) (h : bound_handler) (s : WebSocketClient)
  : WebSocketClient :=
  with_control (Awaiting h) (emit (Issue op) s).

(** [flat_buffer::consume]: drop the first [n] bytes. *)
Fixpoint consume (n : nat) (b : string) : string :=
  match n, b with
  | O, _ => b
  | S n', String _ r => consume n' r
  | S _, EmptyString => EmptyString
  end.

(** The constructor: default-constructed members, nothing started. *)
Definition WebSocketClient_new : WebSocketClient :=
  {| buffer_ := ""; host_ := ""; instrument_ := ""; control := Fresh; log := [] |}.

(** What a handler call comes to: it returns, or an exception leaves it. *)
Inductive outcome : Type :=
| Returned (s : WebSocketClient)
| Raised (what : string) (s : WebSocketClient).

Notation "s |> f" := (f s) (at level 45, left associativity, only parsing).

Definition run (host port instrument : string) (s : WebSocketClient)
  : WebSocketClient :=
  s |> with_host host
    |> with_instrument instrument
    |> start (async_resolve host port) OnResolve.

(** [fail] only reports. *)
Definition fail (ec : error_code) (what : string) (s : WebSocketClient)
  : WebSocketClient :=
  s |> emit (Cerr (what ++ ": " ++ ec_message ec ++ LF)).

Definition on_resolve (ec : error_code) (results : list endpoint)
  (s : WebSocketClient) : WebSocketClient :=
  if failed ec then fail ec "resolve" s
  else s |> emit (ExpiresAfter 30)
         |> start (async_connect results) OnConnect.

Definition on_connect (ec : error_code) (ep : endpoint) (s : WebSocketClient)
  : WebSocketClient :=
  if failed ec then fail ec "connect" s
  else s |> with_host (host_ s ++ ":" ++ to_string (ep_port ep))
         |> emit (ExpiresAfter 30)
         |> start ssl_async_handshake OnSslHandshake.

Definition on_ssl_handshake (ec : error_code) (s : WebSocketClient)
  : WebSocketClient :=
  if failed ec then fail ec "ssl_handshake" s
  else s |> emit ExpiresNever
         |> emit (SetSuggestedTimeouts client)
         |> (fun s => start (ws_async_handshake (host_ s) "/ws/api/v2") OnHandshake s).

Definition subscribe_to_orderbook (s : WebSocketClient) : outcome :=
  match subscription_value (instrument_ s) with
  | Json.LogicError what => Raised what s
  | Json.Ok subscription =>
      let message := Json.FastWriter_write subscription in
      Returned (start (async_write message) OnWrite s)
  end.

Definition on_handshake (ec : error_code) (s : WebSocketClient) : outcome :=
  if failed ec then Returned (fail ec "handshake" s)
  else subscribe_to_orderbook s.

Definition read (s : WebSocketClient) : WebSocketClient :=
  start (async_read (buffer_ s)) OnRead s.

Definition on_write (ec : error_code) (transferred : N)
  (s : WebSocketClient) : WebSocketClient :=
  if failed ec then fail ec "write" s
  else read s.

(** What the io_context hands to a handler when the outstanding operation
    completes.  Each handler reads the fields its operation produces:
    [results] after a resolve, [peer] after a connect, [received] (the bytes
    the read added to [buffer_]) after a read. *)
Record completion : Type := {
  ec : error_code;
  results : list endpoint;
  peer : endpoint;
  bytes_transferred : N;
  received : string
}.

(** What a call of [Json::Reader::parse] comes to: it returns true and has
    filled the root, it returns false, or it does not return because the
    reader throws (jsoncpp's reader raises [Json::RuntimeError], a
    [std::exception], when a document nests deeper than its stack limit). *)
Inductive reading (R : Type) : Type :=
| Parsed (root : R)
| Rejected
| ReaderThrew (what : string).

Arguments Parsed {R} root.
Arguments Rejected {R}.
Arguments ReaderThrew {R} what.

(** jsoncpp's reader and styled writer on the inbound side:
    [Json::Reader::parse] on a text, and [toStyledString], which prints a
    root.  The session only calls them, so they are an interface here. *)
Class JsonReader : Type := {
  Root : Type;
  Reader_parse : string -> reading Root;
  toStyledString : Root -> string
}.

Section Session.

Context {J : JsonReader}.

(** The end of [on_read]: the buffer is cleared and the next read started. *)
Definition clear_and_read (s : WebSocketClient) : WebSocketClient :=
  s |> (fun s => with_buffer (consume (String.length (buffer_ s)) (buffer_ s)) s)
    |> read.

(** An exception of the reader leaves [on_read] at the call of [parse]:
    nothing is printed, the buffer keeps its contents, no read is started. *)
Definition on_read (ec : error_code) (transferred : N)
  (s : WebSocketClient) : outcome :=
  if failed ec then Returned (fail ec "read" s)
  else
    let data := buffer_ s in
    match Reader_parse data with
    | Parsed root =>
        Returned
          (s |> emit (Cout ("Received message:" ++ LF ++ toStyledString root ++ LF))
             |> clear_and_read)
    | Rejected =>
        Returned
          (s |> emit (Cerr ("Failed to parse JSON: " ++ data ++ LF))
             |> clear_and_read)
    | ReaderThrew what => Raised what s
    end.

(** The io_context calls the handler bound to the completed operation.  The
    operation is no longer outstanding when the handler starts; a completed
    read has put its bytes at the end of [buffer_]. *)
Definition dispatch (h : bound_handler) (c : completion) (s : WebSocketClient)
  : outcome :=
  let s0 := s |> with_control Done |> emit (Complete h (ec c)) in
  match h with
  | OnResolve => Returned (on_resolve (ec c) (results c) s0)
  | OnConnect => Returned (on_connect (ec c) (peer c) s0)
  | OnSslHandshake => Returned (on_ssl_handshake (ec c) s0)
  | OnHandshake => on_handshake (ec c) s0
  | OnWrite => Returned (on_write (ec c) (bytes_transferred c) s0)
  | OnRead =>
      on_read (ec c) (bytes_transferred c)
        (with_buffer (buffer_ s0 ++ received c) s0)
  end.

(** [io_context::run] against the completions the network delivers, in
    order.  It returns when nothing is outstanding, lets a handler's
    exception through, and is still blocked when the completions known so
    far are used up. *)
Inductive run_result : Type :=
| Drained (s : WebSocketClient)
| Threw (what : string) (s : WebSocketClient)
| Waiting (s : WebSocketClient).

Fixpoint io_context_run (cs : list completion) (s : WebSocketClient) : run_result :=
  match control s with
  | Awaiting h =>
      match cs with
      | [] => Waiting s
      | c :: cs' =>
          match dispatch h c s with
          | Returned s' => io_context_run cs' s'
          | Raised what s' => Threw what s'
          end
      end
  | _ => Drained s
  end.

(** The sessions after each handler that [io_context_run] calls. *)
Fixpoint run_states (cs : list completion) (s : WebSocketClient)
  : list WebSocketClient :=
  match control s with
  | Awaiting h =>
      match cs with
      | [] => []
      | c :: cs' =>
          match dispatch h c s with
          | Returned s' => s' :: run_states cs' s'
          | Raised _ s' => [s']
          end
      end
  | _ => []
  end.

(** *** [main] *)

(** What the process meets: the line [std::getline] reads, which steps of
    the set-up throw (and with what message), and the completions the
    network delivers. *)
Record environment : Type := {
  stdin_line : string;
  throws : setup_step -> option string;
  completions : list completion
}.

Definition EXIT_SUCCESS : Z := 0.
Definition EXIT_FAILURE : Z := 1.

(** The exit status is [None] while [io_context::run] is still blocked. *)
Record process : Type := {
  exit_status : option Z;
  output : list event
}.

Definition setup_steps : list setup_step :=
  [NewIoContext; NewSslContext; SetVerifyMode; SetDefaultVerifyPaths; MakeClient].

(** The statements of the [try] block before [run], up to the first that
    throws. *)
Fixpoint perform (throws : setup_step -> option string) (steps : list setup_step)
  (out : list event) : (string * list event) + list event :=
  match steps with
  | [] => inr out
  | st :: rest =>
      match throws st with
      | Some what => inl (what, out)
      | None => perform throws rest (out ++ [Setup st])
      end
  end.

(** The [catch] clause. *)
Definition caught (what : string) (out : list event) : process :=
  {| exit_status := Some EXIT_FAILURE;
     output := out ++ [Cerr ("Error: " ++ what ++ LF)] |}.

Definition main (env : environment) : process :=
  let prompt := Cout "Enter the instrument name (e.g., BTC-PERPETUAL): " in
  let instrument := stdin_line env in
  match instrument with
  | EmptyString =>
      {| exit_status := Some EXIT_FAILURE;
         output := [prompt; Cerr ("Error: Instrument name cannot be empty." ++ LF)] |}
  | _ =>
      match perform (throws env) setup_steps [prompt] with
      | inl (what, out) => caught what out
      | inr out =>
          let client := run "www.deribit.com" "443" instrument WebSocketClient_new in
          match io_context_run (completions env) client with
          | Drained s => {| exit_status := Some EXIT_SUCCESS; output := out ++ log s |}
          | Threw what s => caught what (out ++ log s)
          | Waiting s => {| exit_status := None; output := out ++ log s |}
          end
      end
  end.

End Session.


(* ------------------------------------------------------------------ *)
(** ** The lifecycle read off a session *)

(** The stages of the connection lifecycle.  The code keeps no stage
    variable: the stage is which handler the outstanding operation is bound
    to, and [Failed] is a session with nothing outstanding after [run]. *)
Inductive stage : Type :=
| Init | Resolving | Connecting | SecureHandshaking | ProtocolHandshaking
| Subscribing | Streaming | Failed.

Definition stage_of (s : WebSocketClient) : stage :=
  match control s with
  | Fresh => Init
  | Awaiting OnResolve => Resolving
  | Awaiting OnConnect => Connecting
  | Awaiting OnSslHandshake => SecureHandshaking
  | Awaiting OnHandshake => ProtocolHandshaking
  | Awaiting OnWrite => Subscribing
  | Awaiting OnRead => Streaming
  | Done => Failed
  end.

Definition stage_order : list stage :=
  [Init; Resolving; Connecting; SecureHandshaking; ProtocolHandshaking;
   Subscribing; Streaming].

Definition rank (st : stage) : nat :=
  match st with
  | Init => 0 | Resolving => 1 | Connecting => 2 | SecureHandshaking => 3
  | ProtocolHandshaking => 4 | Subscribing => 5 | Streaming => 6 | Failed => 7
  end.

Definition stage_eqb (a b : stage) : bool := Nat.eqb (rank a) (rank b).

(** [b] is the stage right after [a] in [stage_order]. *)
Definition follows (a b : stage) : bool :=
  negb (stage_eqb b Failed) && Nat.eqb (rank b) (S (rank a)).

(** A stage with an operation outstanding. *)
Definition active (a : stage) : bool :=
  negb (stage_eqb a Init) && negb (stage_eqb a Failed).

(** The moves a lifecycle may make from one handler call to the next: one
    stage forward, staying in [Streaming], or failing out of an active
    stage. *)
Definition may_step (a b : stage) : bool :=
  follows a b
  || (stage_eqb a Streaming && stage_eqb b Streaming)
  || (active a && stage_eqb b Failed).

Fixpoint chain (l : list stage) : bool :=
  match l with
  | a :: ((b :: _) as r) => may_step a b && chain r
  | _ => true
  end.

(** The stage label each handler passes to [fail]. *)
Definition label (h : bound_handler) : string :=
  match h with
  | OnResolve => "resolve"
  | OnConnect => "connect"
  | OnSslHandshake => "ssl_handshake"
  | OnHandshake => "handshake"
  | OnWrite => "write"
  | OnRead => "read"
  end.

(** *** Reading a log *)

Definition is_issue (e : event) : bool :=
  match e with Issue _ => true | _ => false end.

Definition is_write (e : event) : bool :=
  match e with Issue (async_write _) => true | _ => false end.

Definition count_writes (l : list event) : nat := List.length (filter is_write l).

Definition is_read (e : event) : bool :=
  match e with Issue (async_read _) => true | _ => false end.

Definition count_reads (l : list event) : nat := List.length (filter is_read l).

(** The messages of the writes started, in order. *)
Fixpoint written (l : list event) : list string :=
  match l with
  | [] => []
  | Issue (async_write m) :: r => m :: written r
  | _ :: r => written r
  end.

(** Events of the set-up only: the prompt and the steps done. *)
Definition preamble (e : event) : bool :=
  match e with Cout _ | Setup _ => true | _ => false end.

(** [on_handshake] has been called with a clear error code. *)
Definition handshake_succeeded (l : list event) : bool :=
  existsb (fun e => match e with
                    | Complete OnHandshake ec => negb (failed ec)
                    | _ => false
                    end) l.

(** *** Invariants of the log *)

(** What the log says about writes, by what the session is waiting for. *)
Definition writes_match_handshake (s : WebSocketClient) : Prop :=
  count_writes (log s) = (if handshake_succeeded (log s) then 1 else 0) /\
  match control s with
  | Awaiting OnWrite | Awaiting OnRead => handshake_succeeded (log s) = true
  | Done => True
  | _ => handshake_succeeded (log s) = false
  end.

(** Every read in the log was started on an empty buffer, and the buffer is
    empty as long as the session has not failed. *)
Definition reads_start_empty (s : WebSocketClient) : Prop :=
  (forall b, In (Issue (async_read b)) (log s) -> b = "") /\
  (control s <> Done -> buffer_ s = "").

(** The session a handler call ends with, however it ends. *)
Definition outcome_session (o : outcome) : WebSocketClient :=
  match o with
  | Returned s | Raised _ s => s
  end.

(** The session a run ends with, however it ends. *)
Definition session_of (r : run_result) : WebSocketClient :=
  match r with
  | Drained s | Threw _ s | Waiting s => s
  end.

Section Lifecycle.

Context {J : JsonReader}.

(** The session as [main] sets it going, and every session an execution
    passes through after that. *)
Definition started (host port instrument : string) : WebSocketClient :=
  run host port instrument WebSocketClient_new.

Definition visited (cs : list completion) (host port instrument : string)
  : list WebSocketClient :=
  started host port instrument :: run_states cs (started host port instrument).

(** The stages of an execution, from construction on. *)
Definition lifecycle (cs : list completion) (host port instrument : string)
  : list stage :=
  map stage_of (WebSocketClient_new :: visited cs host port instrument).

End Lifecycle.

(** The request [subscribe_to_orderbook] ends up with: the same object for
    every instrument, up to the channel name. *)
Definition request_for (instrument : string) : Json.Value :=
  Json.objectValue
    [("id", Json.intValue 1);
     ("jsonrpc", Json.stringValue "2.0");
     ("method", Json.stringValue "public/subscribe");
     ("params",
      Json.objectValue
        [("channels",
          Json.arrayValue [Json.stringValue ("book." ++ instrument ++ ".100ms")])])].

(* ------------------------------------------------------------------ *)
(** ** Concrete inputs *)

(** The number of array brackets a text opens with. *)
Fixpoint opening_brackets (text : string) : nat :=
  match text with
  | String c r => if Ascii.eqb c "["%char then S (opening_brackets r) else 0
  | EmptyString => 0
  end.

(** A reader that stands for jsoncpp's on three kinds of text, enough to run
    the session on concrete inputs: a text that opens more than 1000 nested
    arrays is past the reader's stack limit and makes it throw, the
    document of an empty object parses, and anything else is rejected. *)
Definition small_reader : JsonReader :=
  {| Root := unit;
     Reader_parse := fun text =>
       if Nat.ltb 1000 (opening_brackets text)
       then ReaderThrew "Exceeded stackLimit in readValue()."
       else if String.eqb text "{}" then Parsed tt else Rejected;
     toStyledString := fun _ => "{}" ++ LF |}.




Definition no_error : error_code := {| ec_value := 0; ec_message := "Success" |}.
Definition timed_out : error_code :=
  {| ec_value := 110; ec_message := "Connection timed out" |}.

Definition deribit : endpoint := {| ep_address := "172.64.144.166"; ep_port := 443 |}.

Definition completed (text : string) : completion :=
  {| ec := no_error; results := [deribit]; peer := deribit;
     bytes_transferred := N.of_nat (String.length text); received := text |}.

Definition broke : completion :=
  {| ec := timed_out; results := []; peer := deribit;
     bytes_transferred := 0; received := "" |}.

(** Resolve, connect, TLS handshake and WebSocket handshake all succeed. *)
Definition handshaken : list completion :=
  [completed ""; completed ""; completed ""; completed ""].

(** After the handshakes: the write completes, a read brings a document, a
    read brings text that is no JSON, and the next read breaks. *)
Definition streaming_run : list completion :=
  (handshaken ++ [completed ""; completed "{}"; completed "oops"; broke])%list.


(** The host, port and instrument of a run on BTC-PERPETUAL. *)
Definition btc_session : WebSocketClient :=
  run "www.deribit.com" "443" "BTC-PERPETUAL" WebSocketClient_new.

Definition never_throws : setup_step -> option string := fun _ => None.

(** The subscribe frame as the specification prints it for BTC-PERPETUAL. *)
Definition documented_frame : string :=
  wire "{'jsonrpc':'2.0','id':1,'method':'public/subscribe','params':{'channels':['book.BTC-PERPETUAL.100ms']}}".

(** The same request with the members in key order and the writer's line
    feed. *)
Definition actual_frame : string :=
  wire "{'id':1,'jsonrpc':'2.0','method':'public/subscribe','params':{'channels':['book.BTC-PERPETUAL.100ms']}}"
  ++ LF.

(* ------------------------------------------------------------------ *)
(** ** More readings of a log *)

Definition is_complete (e : event) : bool :=
  match e with Complete _ _ => true | _ => false end.

Definition count_issues (l : list event) : nat := List.length (filter is_issue l).

Definition count_completes (l : list event) : nat :=
  List.length (filter is_complete l).

(** The kinds of operation, in the order the handlers start them. *)
Inductive op_kind : Type :=
| KResolve | KConnect | KTls | KUpgrade | KWrite | KRead.

Definition kind_of (op : operation) : op_kind :=
  match op with
  | async_resolve _ _ => KResolve
  | async_connect _ => KConnect
  | ssl_async_handshake => KTls
  | ws_async_handshake _ _ => KUpgrade
  | async_write _ => KWrite
  | async_read _ => KRead
  end.

Definition kind_rank (k : op_kind) : nat :=
  match k with
  | KResolve => 0 | KConnect => 1 | KTls => 2 | KUpgrade => 3 | KWrite => 4
  | KRead => 5
  end.

(** The kind of operation a handler completes. *)
Definition kind_completed (h : bound_handler) : op_kind :=
  match h with
  | OnResolve => KResolve
  | OnConnect => KConnect
  | OnSslHandshake => KTls
  | OnHandshake => KUpgrade
  | OnWrite => KWrite
  | OnRead => KRead
  end.

Definition is_kind (k : op_kind) (e : event) : bool :=
  match e with
  | Issue op => Nat.eqb (kind_rank (kind_of op)) (kind_rank k)
  | _ => false
  end.

Definition count_kind (k : op_kind) (l : list event) : nat :=
  List.length (filter (is_kind k) l).

(** A timeout setting made on the stream: [expires_after] and
    [expires_never] on the lowest layer, [set_option(timeout::suggested(role))]
    on the WebSocket layer. *)
Inductive timeout_setting : Type :=
| expires_after (seconds : Z)
| expires_never
| suggested (role : role_type).

(** Every timeout setting in a log, in order. *)
Fixpoint timeout_settings (l : list event) : list timeout_setting :=
  match l with
  | [] => []
  | ExpiresAfter n :: r => expires_after n :: timeout_settings r
  | ExpiresNever :: r => expires_never :: timeout_settings r
  | SetSuggestedTimeouts role :: r => suggested role :: timeout_settings r
  | _ :: r => timeout_settings r
  end.

(** The settings the handlers make, in the order they make them. *)
Definition settings_in_order : list timeout_setting :=
  [expires_after 30; expires_after 30; expires_never; suggested client].

(** How many of them have been made when [h] is waited for. *)
Definition settings_made (h : bound_handler) : nat :=
  match h with
  | OnResolve => 0
  | OnConnect => 1
  | OnSslHandshake => 2
  | _ => 4
  end.

(** The handler bound by the operation that the success branch of [h]
    starts. *)
Definition next_handler (h : bound_handler) : bound_handler :=
  match h with
  | OnResolve => OnConnect
  | OnConnect => OnSslHandshake
  | OnSslHandshake => OnHandshake
  | OnHandshake => OnWrite
  | OnWrite => OnRead
  | OnRead => OnRead
  end.

(** The handler waited for after [n] completions without error. *)
Definition handler_after (n : nat) : bound_handler :=
  Nat.iter n next_handler OnResolve.

(** A byte that the writer copies as it is in every jsoncpp release:
    printable ASCII other than the double quote and the backslash. *)
Definition plain_char (c : ascii) : bool :=
  let n := N_of_ascii c in
  (32 <=? n)%N && (n <? 127)%N
  && negb (Ascii.eqb c dquote) && negb (Ascii.eqb c backslash).

Fixpoint plain (s : string) : bool :=
  match s with
  | EmptyString => true
  | String c r => plain_char c && plain r
  end.

(** The frame with the instrument put in as it is. *)
Definition frame_with (instrument : string) : string :=
  wire "{'id':1,'jsonrpc':'2.0','method':'public/subscribe','params':{'channels':['book."
  ++ instrument ++ wire ".100ms']}}" ++ LF.

Section PumpOutput.

Context {J : JsonReader}.

(** The reader throws on this text. *)
Definition reader_throws_on (text : string) : bool :=
  match Reader_parse text with
  | ReaderThrew _ => true
  | _ => false
  end.

(** What [on_read] prints for a payload: the parsed message on the output
    sink, the diagnostic on the error sink, or nothing when the reader
    throws. *)
Definition printed_for (payload : string) : option event :=
  match Reader_parse payload with
  | Parsed root => Some (Cout ("Received message:" ++ LF ++ toStyledString root ++ LF))
  | Rejected => Some (Cerr ("Failed to parse JSON: " ++ payload ++ LF))
  | ReaderThrew _ => None
  end.

(** The log entries of one turn of the read loop; the turn is cut short
    after the handler call when the reader throws. *)
Definition pump_turn (c : completion) : list event :=
  match printed_for (received c) with
  | Some line => [Complete OnRead (ec c); line; Issue (async_read "")]
  | None => [Complete OnRead (ec c)]
  end.

(** The session an exception of the reader leaves behind: the handler has
    been called, the bytes are in the buffer, nothing is outstanding. *)
Definition left_by_reader (c : completion) (s : WebSocketClient) : WebSocketClient :=
  s |> with_control Done |> emit (Complete OnRead (ec c))
    |> (fun s0 => with_buffer (buffer_ s0 ++ received c) s0).

End PumpOutput.

(* ------------------------------------------------------------------ *)
(** ** The trading menu (main.cpp) *)

Module Menu.

(** The operations of [DeribitAPI] that the menu calls.  The class is
    declared elsewhere; a call is recorded, not run. *)
Inductive api_call : Type :=
| get_token | place_order | get_positions | get_order_book | modify_order
| cancel_order.

Inductive event : Type :=
| ApiMade
| Shown (text : string)
| Called (m : api_call).

Definition display_menu : list event :=
  [Shown ("Select an action:" ++ LF);
   Shown ("1. Authenticate" ++ LF);
   Shown ("2. Place Order" ++ LF);
   Shown ("3. Get Positions" ++ LF);
   Shown ("4. Get Order Book" ++ LF);
   Shown ("5. Modify Order" ++ LF);
   Shown ("6. Cancel Order" ++ LF);
   Shown ("7. Exit" ++ LF)].

(** What [std::cin >> choice] meets next in the input: an integer literal,
    or text that is no integer. *)
Inductive token : Type :=
| Number (z : Z)
| Word.

Definition INT_MIN : Z := -2147483648.
Definition INT_MAX : Z := 2147483647.

(** The literal is a value of [int]. *)
Definition fits (z : Z) : bool := ((INT_MIN <=? z) && (z <=? INT_MAX))%Z.

(** How a run stands.  [ChoiceUnset]: the stream has failed or ended, so the
    extraction leaves [choice] as it is, and [choice] is declared afresh,
    without an initial value, on every turn: the [switch] reads a variable
    that was never set, and what the loop does from there is not fixed by
    the program. *)
Inductive standing : Type :=
| Exited (status : Z)
| AwaitingInput
| ChoiceUnset.

Record result : Type := {
  returned : standing;
  shown : list event
}.

(** The [while (true)] loop against the tokens in the input; [at_end] says
    whether the input ends after them (end of file) or stays open.

    An extraction succeeds on a literal that fits [int].  On a literal out
    of range it stores the nearest bound of [int] and on text that is no
    integer it stores 0, and both set the stream's fail bit: the [switch]
    takes the default branch, and from the next turn on the stream, which
    the loop never tests or clears, extracts nothing more. *)
Fixpoint main_loop (tokens : list token) (at_end : bool) (out : list event)
  : result :=
  let out := (out ++ display_menu)%list in
  let invalid := Shown ("Invalid choice! Please try again." ++ LF) in
  match tokens with
  | [] => {| returned := if at_end then ChoiceUnset else AwaitingInput;
             shown := out |}
  | Number choice :: rest =>
      if fits choice then
        match choice with
        | 1 => main_loop rest at_end (out ++ [Called get_token])
        | 2 => main_loop rest at_end (out ++ [Called place_order])
        | 3 => main_loop rest at_end (out ++ [Called get_positions])
        | 4 => main_loop rest at_end (out ++ [Called get_order_book])
        | 5 => main_loop rest at_end (out ++ [Called modify_order])
        | 6 => main_loop rest at_end (out ++ [Called cancel_order])
        | 7 => {| returned := Exited 0; shown := out |}
        | _ => main_loop rest at_end (out ++ [invalid])
        end%Z
      else
        {| returned := ChoiceUnset;
           shown := ((out ++ [invalid]) ++ display_menu)%list |}
  | Word :: _ =>
      {| returned := ChoiceUnset;
         shown := ((out ++ [invalid]) ++ display_menu)%list |}
  end.

Definition main (tokens : list token) (at_end : bool) : result :=
  main_loop tokens at_end [ApiMade].

(** *** Reading the menu's output *)

Definition is_call (e : event) : bool :=
  match e with Called _ => true | _ => false end.

Definition is_menu_head (e : event) : bool :=
  match e with
  | Shown text => String.eqb text ("Select an action:" ++ LF)
  | _ => false
  end.

Definition is_invalid_notice (e : event) : bool :=
  match e with
  | Shown text => String.eqb text ("Invalid choice! Please try again." ++ LF)
  | _ => false
  end.

Definition count (p : event -> bool) (l : list event) : nat :=
  List.length (filter p l).

(** A choice the loop extracts and goes on after: it fits and is not 7. *)
Definition goes_on (z : Z) : bool := fits z && negb (z =? 7)%Z.

(** The choices the loop acts on and goes round again: the literals before
    the first 7 and before the first token that fails. *)
Fixpoint acted_on (tokens : list token) : list Z :=
  match tokens with
  | Number z :: rest => if goes_on z then z :: acted_on rest else []
  | _ => []
  end.

(** The token at which the loop stops going round, if the input has one. *)
Fixpoint stopped_at (tokens : list token) : option token :=
  match tokens with
  | Number z :: rest => if goes_on z then stopped_at rest else Some (Number z)
  | Word :: _ => Some Word
  | [] => None
  end.

(** The extraction of this token fails. *)
Definition fails (tk : token) : bool :=
  match tk with
  | Number z => negb (fits z)
  | Word => true
  end.

(** The loop stopped at a token whose extraction fails. *)
Definition stopped_by_failure (tokens : list token) : bool :=
  match stopped_at tokens with
  | Some tk => fails tk
  | None => false
  end.

(** A choice that names an operation. *)
Definition names_operation (choice : Z) : bool :=
  ((1 <=? choice) && (choice <=? 6))%Z.

(** What the [switch] does for a choice other than 7 before the loop goes
    round again. *)
Definition acted (choice : Z) : event :=
  match choice with
  | 1 => Called get_token
  | 2 => Called place_order
  | 3 => Called get_positions
  | 4 => Called get_order_book
  | 5 => Called modify_order
  | 6 => Called cancel_order
  | _ => Shown ("Invalid choice! Please try again." ++ LF)
  end%Z.

End Menu.

(* ------------------------------------------------------------------ *)
(** ** Basic facts about the handlers and the loop *)

Lemma log_emit (e : event) (s : WebSocketClient) : log (emit e s) = (log s ++ [e])%list.
Proof. reflexivity. Qed.

Lemma consume_all (b : string) : consume (String.length b) b = "".
Proof. induction b as [|c r IH]; simpl; [reflexivity | exact IH]. Qed.

Lemma count_writes_app (l1 l2 : list event) :
  count_writes (l1 ++ l2) = count_writes l1 + count_writes l2.
Proof. unfold count_writes. rewrite filter_app, length_app. reflexivity. Qed.

Lemma handshake_succeeded_app (l1 l2 : list event) :
  handshake_succeeded (l1 ++ l2) = handshake_succeeded l1 || handshake_succeeded l2.
Proof. unfold handshake_succeeded. apply existsb_app. Qed.

Lemma written_app (l1 l2 : list event) : written (l1 ++ l2) = (written l1 ++ written l2)%list.
Proof.
  induction l1 as [|e r IH]; simpl; [reflexivity|].
  destruct e as [| | | | | |op|]; try exact IH.
  destruct op; try exact IH. simpl. now rewrite IH.
Qed.

Lemma subscription_value_ok (instrument : string) :
  subscription_value instrument = Json.Ok (request_for instrument).
Proof. reflexivity. Qed.

Lemma subscribe_to_orderbook_writes (s : WebSocketClient) :
  subscribe_to_orderbook s =
  Returned (start (async_write (Json.FastWriter_write (request_for (instrument_ s))))
              OnWrite s).
Proof. unfold subscribe_to_orderbook. now rewrite subscription_value_ok. Qed.

(** Split a handler call that returns into the paths through its body. *)
Ltac handler_paths Hd :=
  match type of Hd with
  | dispatch ?h ?c ?s = Returned ?s' =>
      destruct h; unfold dispatch in Hd;
      unfold on_resolve, on_connect, on_ssl_handshake, on_handshake, on_write,
        on_read, clear_and_read, read, fail in Hd;
      try rewrite subscribe_to_orderbook_writes in Hd;
      destruct (failed (ec c)) eqn:?;
      try (match type of Hd with
           | context [Reader_parse ?d] => destruct (Reader_parse d) eqn:?
           end);
      try discriminate Hd;
      injection Hd as <-
  end.

Section LoopFacts.

Context {J : JsonReader}.

(** The one exception that leaves a handler is the reader's, in [on_read]
    on a read that completed without error. *)
Lemma dispatch_raised (h : bound_handler) (c : completion) (s : WebSocketClient)
  (what : string) (s' : WebSocketClient) :
  dispatch h c s = Raised what s' ->
  h = OnRead /\ failed (ec c) = false /\
  Reader_parse (buffer_ s ++ received c) = ReaderThrew what /\
  s' = left_by_reader c s.
Proof.
  intros Hd. destruct h; unfold dispatch in Hd;
    unfold on_resolve, on_connect, on_ssl_handshake, on_handshake, on_write,
      on_read, clear_and_read, read, fail in Hd;
    try rewrite subscribe_to_orderbook_writes in Hd;
    destruct (failed (ec c)) eqn:Hf; try discriminate Hd.
  cbn [buffer_ with_buffer emit with_control] in Hd.
  destruct (Reader_parse (buffer_ s ++ received c)) eqn:Hp; try discriminate Hd.
  injection Hd as <- <-. repeat split; reflexivity.
Qed.

(** A property that the started session has, that every handler call keeps
    and that survives an exception of the reader holds all along every
    execution. *)
Lemma run_states_invariant (P : WebSocketClient -> Prop) :
  (forall h c s s',
      P s -> control s = Awaiting h -> dispatch h c s = Returned s' -> P s') ->
  (forall c s, P s -> control s = Awaiting OnRead -> P (left_by_reader c s)) ->
  forall cs s, P s -> Forall P (run_states cs s).
Proof.
  intros Hstep Hleft cs. induction cs as [|c cs IH]; intros s Hs; simpl.
  - destruct (control s); constructor.
  - destruct (control s) as [|h|] eqn:Hc; try constructor.
    destruct (dispatch h c s) as [s'|what s'] eqn:Hd.
    + assert (P s') by (eapply Hstep; eauto).
      constructor; auto.
    + destruct (dispatch_raised h c s what s' Hd) as [-> [_ [_ ->]]].
      constructor; [now apply Hleft | constructor].
Qed.

Lemma visited_invariant (P : WebSocketClient -> Prop) (host port instrument : string) :
  P (started host port instrument) ->
  (forall h c s s',
      P s -> control s = Awaiting h -> dispatch h c s = Returned s' -> P s') ->
  (forall c s, P s -> control s = Awaiting OnRead -> P (left_by_reader c s)) ->
  forall cs s, In s (visited cs host port instrument) -> P s.
Proof.
  intros H0 Hstep Hleft cs s [<-|Hin]; [exact H0|].
  pose proof (run_states_invariant P Hstep Hleft cs _ H0) as HF.
  rewrite Forall_forall in HF. now apply HF.
Qed.

(** The session a run ends with is one of those it passed through. *)
Lemma session_of_run_in (cs : list completion) (s : WebSocketClient) :
  In (session_of (io_context_run cs s)) (s :: run_states cs s).
Proof.
  revert s. induction cs as [|c cs IH]; intros s; simpl.
  - destruct (control s); simpl; auto.
  - destruct (control s) as [|h|]; simpl; auto.
    destruct (dispatch h c s) as [s'|what s'].
    + right. apply IH.
    + simpl. auto.
Qed.

End LoopFacts.

(* ------------------------------------------------------------------ *)
(** ** The subscription request *)

Section Subscription.

Context {J : JsonReader}.

Lemma instrument_kept (h : bound_handler) (c : completion) (s s' : WebSocketClient) :
  dispatch h c s = Returned s' -> instrument_ s' = instrument_ s.
Proof. intros Hd. handler_paths Hd; reflexivity. Qed.

Lemma written_step (h : bound_handler) (c : completion) (s s' : WebSocketClient) :
  dispatch h c s = Returned s' ->
  forall m, In m (written (log s')) ->
            In m (written (log s))
            \/ m = Json.FastWriter_write (request_for (instrument_ s)).
Proof.
  intros Hd m. handler_paths Hd; simpl;
    repeat rewrite written_app; simpl; repeat rewrite app_nil_r;
    intros Hin; auto.
  apply in_app_or in Hin. destruct Hin as [Hin|[<-|[]]]; auto.
Qed.

(** All along an execution the session holds the instrument [run] stored,
    and every write carries the request for it. *)
Lemma visited_instrument_and_writes (cs : list completion)
  (host port instrument : string) (s : WebSocketClient) :
  In s (visited cs host port instrument) ->
  instrument_ s = instrument /\
  forall m, In m (written (log s)) ->
            m = Json.FastWriter_write (request_for instrument).
Proof.
  revert cs s. apply visited_invariant.
  - split; [reflexivity | intros m []].
  - intros h c s s' [Hi Hw] _ Hd. split.
    + rewrite (instrument_kept _ _ _ _ Hd). exact Hi.
    + intros m Hm. destruct (written_step _ _ _ _ Hd m Hm) as [H|H].
      * now apply Hw.
      * now rewrite Hi in H.
  - intros c s [Hi Hw] _. split; [exact Hi|].
    intros m Hm. apply Hw. unfold left_by_reader in Hm.
    cbn [log emit with_control with_buffer] in Hm.
    rewrite written_app in Hm. simpl in Hm. now rewrite app_nil_r in Hm.
Qed.

End Subscription.

(** C1. For every instrument string given at startup, at every point of every
    execution the session still holds that instrument, the request that
    [subscribe_to_orderbook] builds has jsonrpc version "2.0", identifier 1,
    method "public/subscribe" and a channel list with the single element
    "book." + instrument + ".100ms", that request is what it writes, and no
    write in the log carries anything else. *)
Theorem subscription_request_shape {J : JsonReader} :
  forall (cs : list completion) (host port instrument : string) (s : WebSocketClient),
    In s (visited cs host port instrument) ->
    instrument_ s = instrument /\
    exists root params,
      subscription_value (instrument_ s) = Json.Ok root /\
      subscribe_to_orderbook s =
        Returned (start (async_write (Json.FastWriter_write root)) OnWrite s) /\
      Json.member "jsonrpc" root = Some (Json.stringValue "2.0") /\
      Json.member "id" root = Some (Json.intValue 1) /\
      Json.member "method" root = Some (Json.stringValue "public/subscribe") /\
      Json.member "params" root = Some params /\
      Json.member "channels" params =
        Some (Json.arrayValue [Json.stringValue ("book." ++ instrument ++ ".100ms")]) /\
      forall m, In m (written (log s)) -> m = Json.FastWriter_write root.
Proof.
  intros cs host port instrument s Hin.
  destruct (visited_instrument_and_writes cs host port instrument s Hin) as [Hi Hw].
  split; [exact Hi|].
  exists (request_for instrument), 
    (Json.objectValue
       [("channels",
         Json.arrayValue [Json.stringValue ("book." ++ instrument ++ ".100ms")])]).
  rewrite Hi. repeat split; try reflexivity.
  - rewrite subscribe_to_orderbook_writes, Hi. reflexivity.
  - exact Hw.
Qed.

Lemma subscription_request_shape_witness :
  let s := session_of (@io_context_run small_reader handshaken btc_session) in
  In s (@visited small_reader handshaken "www.deribit.com" "443" "BTC-PERPETUAL") /\
  instrument_ s = "BTC-PERPETUAL".
Proof.
  assert (Hin : In (session_of (@io_context_run small_reader handshaken btc_session))
                  (@visited small_reader handshaken "www.deribit.com" "443"
                     "BTC-PERPETUAL"))
    by (vm_compute; tauto).
  split; [exact Hin|].
  exact (proj1 (@subscription_request_shape small_reader handshaken
                  "www.deribit.com" "443" "BTC-PERPETUAL" _ Hin)).
Defined.

(* ------------------------------------------------------------------ *)
(** ** What [main] puts out *)

Lemma written_In (m : string) (l : list event) :
  In m (written l) <-> In (Issue (async_write m)) l.
Proof.
  induction l as [|e r IH]; simpl; [tauto|].
  destruct e as [| | | | | |op|]; try (rewrite IH; split; [tauto | intros [H|H]; [discriminate | tauto]]).
  destruct op; try (rewrite IH; split; [tauto | intros [H|H]; [discriminate | tauto]]).
  simpl. rewrite IH. split; intros [H|H]; auto; left; congruence.
Qed.

Lemma perform_spec (throws : setup_step -> option string) (steps : list setup_step) :
  forall out,
    forallb preamble out = true ->
    match perform throws steps out with
    | inl (what, out') =>
        forallb preamble out' = true /\ exists st, throws st = Some what
    | inr out' =>
        forallb preamble out' = true /\ forall st, In st steps -> throws st = None
    end.
Proof.
  induction steps as [|st rest IH]; intros out Hout; simpl.
  - split; [exact Hout | intros st []].
  - destruct (throws st) as [what|] eqn:Hst.
    + split; [exact Hout | now exists st].
    + specialize (IH (out ++ [Setup st])%list).
      rewrite forallb_app, Hout in IH. specialize (IH eq_refl).
      destruct (perform throws rest (out ++ [Setup st])) as [[what out']|out'].
      * exact IH.
      * destruct IH as [H1 H2]. split; [exact H1|].
        intros st' [<-|Hin]; auto.
Qed.

Lemma all_setup_steps (st : setup_step) : In st setup_steps.
Proof. destruct st; simpl; tauto. Qed.

Section MainFacts.

Context {J : JsonReader}.

(** Whatever [main] puts out that is not part of the set-up or an error
    report of its own comes from a session the execution passed through. *)
Lemma main_output_from_session (env : environment) (e : event) :
  In e (output (main env)) ->
  preamble e = false ->
  (forall text, e <> Cerr text) ->
  exists s,
    In s (visited (completions env) "www.deribit.com" "443" (stdin_line env)) /\
    In e (log s).
Proof.
  unfold main. destruct (stdin_line env) as [|a r] eqn:Hline.
  - simpl. intros [<-|[<-|[]]] Hp Hc; [discriminate | exfalso; eapply Hc; reflexivity].
  - pose proof (perform_spec (throws env) setup_steps
                  [Cout "Enter the instrument name (e.g., BTC-PERPETUAL): "] eq_refl) as Hp.
    destruct (perform (throws env) setup_steps _) as [[what out]|out].
    + destruct Hp as [Hp _]. simpl. intros Hin Hpre Hc.
      apply in_app_or in Hin. destruct Hin as [Hin|[<-|[]]].
      * rewrite forallb_forall in Hp. rewrite (Hp _ Hin) in Hpre. discriminate.
      * exfalso; eapply Hc; reflexivity.
    + destruct Hp as [Hp _].
      pose proof (session_of_run_in (completions env)
                    (run "www.deribit.com" "443" (String a r) WebSocketClient_new)) as Hs.
      destruct (io_context_run (completions env) _) as [s|what s|s]; simpl in *.
      * intros Hin Hpre Hc. apply in_app_or in Hin. destruct Hin as [Hin|Hin].
        -- rewrite forallb_forall in Hp. rewrite (Hp _ Hin) in Hpre. discriminate.
        -- exists s. split; [exact Hs | exact Hin].
      * intros Hin Hpre Hc. apply in_app_or in Hin. destruct Hin as [Hin|[<-|[]]].
        -- apply in_app_or in Hin. destruct Hin as [Hin|Hin].
           ++ rewrite forallb_forall in Hp. rewrite (Hp _ Hin) in Hpre. discriminate.
           ++ exists s. split; [exact Hs | exact Hin].
        -- exfalso; eapply Hc; reflexivity.
      * intros Hin Hpre Hc. apply in_app_or in Hin. destruct Hin as [Hin|Hin].
        -- rewrite forallb_forall in Hp. rewrite (Hp _ Hin) in Hpre. discriminate.
        -- exists s. split; [exact Hs | exact Hin].
Qed.

End MainFacts.

(* ------------------------------------------------------------------ *)
(** ** The frame on the wire for BTC-PERPETUAL *)

Lemma btc_frame : Json.FastWriter_write (request_for "BTC-PERPETUAL") = actual_frame.
Proof. vm_compute. reflexivity. Qed.

(** C2, as the code has it.  With the instrument "BTC-PERPETUAL" every frame
    the process writes is the compact text
    {"id":1,"jsonrpc":"2.0","method":"public/subscribe","params":{"channels":["book.BTC-PERPETUAL.100ms"]}}
    followed by one line feed: the members come in key order, as jsoncpp
    keeps them, and [FastWriter] ends the document with a line feed.  It is
    what [subscribe_to_orderbook] writes at every point of the execution. *)
Theorem btc_subscribe_frame {J : JsonReader} :
  forall env : environment,
    stdin_line env = "BTC-PERPETUAL" ->
    (forall m, In (Issue (async_write m)) (output (main env)) -> m = actual_frame) /\
    (forall s,
        In s (visited (completions env) "www.deribit.com" "443" "BTC-PERPETUAL") ->
        subscribe_to_orderbook s = Returned (start (async_write actual_frame) OnWrite s)).
Proof.
  intros env Hline. split.
  - intros m Hin.
    destruct (main_output_from_session env _ Hin eq_refl) as [s [Hs He]];
      [intros text; discriminate|].
    rewrite Hline in Hs.
    destruct (visited_instrument_and_writes _ _ _ _ _ Hs) as [_ Hw].
    rewrite <- btc_frame. apply Hw. now apply written_In.
  - intros s Hs.
    destruct (visited_instrument_and_writes _ _ _ _ _ Hs) as [Hi _].
    rewrite subscribe_to_orderbook_writes, Hi, btc_frame. reflexivity.
Qed.

Lemma btc_subscribe_frame_witness :
  let env := {| stdin_line := "BTC-PERPETUAL"; throws := never_throws;
                completions := handshaken |} in
  stdin_line env = "BTC-PERPETUAL" /\
  (forall m, In (Issue (async_write m)) (output (@main small_reader env)) ->
             m = actual_frame).
Proof.
  split; [reflexivity|].
  exact (proj1 (@btc_subscribe_frame small_reader
                  {| stdin_line := "BTC-PERPETUAL"; throws := never_throws;
                     completions := handshaken |} eq_refl)).
Defined.

(** C2, as the specification states it, fails: run on "BTC-PERPETUAL" through
    a successful handshake, the process writes one frame, and it is not the
    documented text (which starts with the jsonrpc member and has no line
    feed). *)
Lemma documented_frame_not_written :
  let p := @main small_reader
             {| stdin_line := "BTC-PERPETUAL"; throws := never_throws;
                completions := handshaken |} in
  written (output p) = [actual_frame] /\
  written (output p) <> [documented_frame].
Proof.
  split; [vm_compute; reflexivity|].
  intros H.
  apply (f_equal (fun l => match l with
                           | [m] => String.eqb m documented_frame
                           | _ => false
                           end)) in H.
  vm_compute in H. discriminate H.
Qed.

(* ------------------------------------------------------------------ *)
(** ** The order of the stages *)

Lemma chain_tail (a : stage) (l : list stage) : chain (a :: l) = true -> chain l = true.
Proof.
  destruct l as [|b r]; [reflexivity|].
  simpl. intros H. apply andb_true_iff in H. tauto.
Qed.

Lemma chain_skipn (n : nat) : forall l, chain l = true -> chain (skipn n l) = true.
Proof.
  induction n as [|n IH]; intros l H; [exact H|].
  destruct l as [|a r]; [reflexivity|].
  simpl. apply IH. eapply chain_tail; eauto.
Qed.

Lemma chain_adjacent (l : list stage) :
  chain l = true ->
  forall i a b,
    nth_error l i = Some a -> nth_error l (S i) = Some b -> may_step a b = true.
Proof.
  induction l as [|x r IH]; intros Hc i a b Ha Hb.
  - destruct i; discriminate.
  - destruct i as [|i].
    + destruct r as [|y r']; [discriminate|].
      simpl in Ha, Hb. injection Ha as <-. injection Hb as <-.
      simpl in Hc. apply andb_true_iff in Hc. tauto.
    + apply (IH (chain_tail _ _ Hc) i a b); assumption.
Qed.

(** Nothing comes after [Failed]. *)
Lemma chain_failed_last (l : list stage) : chain (Failed :: l) = true -> l = [].
Proof. destruct l as [|b r]; [reflexivity|]. destruct b; discriminate. Qed.

(** Along a chain the rank grows, except while the session stays in
    [Streaming]. *)
Lemma chain_later (l : list stage) :
  forall a b,
    chain (a :: l) = true -> In b l ->
    rank a < rank b \/ (a = Streaming /\ b = Streaming).
Proof.
  induction l as [|x r IH]; intros a b Hc Hin; [destruct Hin|].
  assert (Hax : rank a < rank x \/ (a = Streaming /\ x = Streaming)).
  { simpl in Hc. apply andb_true_iff in Hc. destruct Hc as [Hs _].
    destruct a, x; try discriminate Hs; simpl; try lia; auto. }
  destruct Hin as [<-|Hin]; [exact Hax|].
  destruct (IH x b (chain_tail _ _ Hc) Hin) as [H|[-> ->]];
    destruct Hax as [H'|[-> H']]; try lia; auto.
  left. rewrite <- H'. exact H.
Qed.

(** A chain that reaches [Streaming] has gone through every stage between
    its first and [Streaming], one per step. *)
Lemma chain_reaches_streaming (n : nat) :
  forall a l,
    chain (a :: l) = true ->
    nth_error (a :: l) n = Some Streaming ->
    firstn (7 - rank a) (a :: l) = skipn (rank a) stage_order /\ 6 - rank a <= n.
Proof.
  induction n as [|n IH]; intros a l Hc Hn.
  - simpl in Hn. injection Hn as ->. simpl. split; [reflexivity | lia].
  - destruct l as [|b r]; [destruct n; discriminate|].
    simpl in Hn.
    pose proof (IH b r (chain_tail _ _ Hc) Hn) as [Hf Hle].
    assert (Hs : may_step a b = true)
      by (simpl in Hc; apply andb_true_iff in Hc; tauto).
    destruct b.
    8: { apply chain_tail in Hc. apply chain_failed_last in Hc. subst r.
         destruct n as [|[|n]]; discriminate. }
    all: destruct a; try discriminate Hs;
      unfold stage_order in *; cbn [rank Nat.sub skipn] in *;
      (split; [first [rewrite firstn_cons, Hf; reflexivity | reflexivity] | lia]).
Qed.

Section Order.

Context {J : JsonReader}.

(** One handler call moves the session by one allowed step. *)
Lemma stage_step (h : bound_handler) (c : completion) (s s' : WebSocketClient) :
  control s = Awaiting h -> dispatch h c s = Returned s' ->
  may_step (stage_of s) (stage_of s') = true.
Proof.
  intros Hc Hd. unfold stage_of at 1. rewrite Hc.
  handler_paths Hd; reflexivity.
Qed.

Lemma run_states_chain (cs : list completion) :
  forall s, chain (stage_of s :: map stage_of (run_states cs s)) = true.
Proof.
  induction cs as [|c cs IH]; intros s; simpl run_states.
  - destruct (control s); reflexivity.
  - destruct (control s) as [|h|] eqn:Hc; try reflexivity.
    destruct (dispatch h c s) as [s'|what s'] eqn:Hd.
    + change (may_step (stage_of s) (stage_of s')
              && chain (stage_of s' :: map stage_of (run_states cs s')) = true).
      rewrite (stage_step h c s s' Hc Hd), IH. reflexivity.
    + destruct (dispatch_raised h c s what s' Hd) as [-> [_ [_ ->]]].
      unfold stage_of at 1. rewrite Hc. reflexivity.
Qed.

Lemma lifecycle_chain (cs : list completion) (host port instrument : string) :
  chain (lifecycle cs host port instrument) = true.
Proof.
  unfold lifecycle, visited.
  change (may_step Init Resolving
          && chain (stage_of (started host port instrument)
                      :: map stage_of (run_states cs (started host port instrument)))
          = true).
  rewrite run_states_chain. reflexivity.
Qed.

End Order.

(** C3. In every execution the stages of the session, listed from
    construction on, reach [Streaming] only after Init, Resolving,
    Connecting, SecureHandshaking, ProtocolHandshaking and Subscribing, in
    that order and one handler call each; every move from one entry to the
    next is one stage forward, a stay in [Streaming] (the read loop) or a
    failure out of a stage with an operation outstanding; and no stage other
    than [Streaming] occurs twice. *)
Theorem lifecycle_in_order {J : JsonReader} :
  forall (cs : list completion) (host port instrument : string),
    let h := lifecycle cs host port instrument in
    (forall i, nth_error h i = Some Streaming ->
               firstn 7 h = stage_order /\ 6 <= i) /\
    (forall i a b,
        nth_error h i = Some a -> nth_error h (S i) = Some b ->
        follows a b = true
        \/ (a = Streaming /\ b = Streaming)
        \/ (active a = true /\ b = Failed)) /\
    (forall i j a,
        i < j -> nth_error h i = Some a -> nth_error h j = Some a ->
        a = Streaming).
Proof.
  intros cs host port instrument h.
  pose proof (lifecycle_chain cs host port instrument) as Hc. fold h in Hc.
  assert (Hh : exists l, h = Init :: l) by (eexists; reflexivity).
  destruct Hh as [l Hl]. clearbody h. subst h.
  split; [|split].
  - intros i Hi.
    destruct (chain_reaches_streaming i Init l Hc Hi) as [Hf Hle].
    simpl in Hf, Hle. split; [exact Hf | lia].
  - intros i a b Ha Hb.
    pose proof (chain_adjacent _ Hc i a b Ha Hb) as Hs.
    destruct a, b; try discriminate Hs; auto.
  - intros i j a Hij Ha Hb.
    pose proof (chain_skipn i _ Hc) as Hc'.
    assert (Hsplit : exists r, skipn i (Init :: l) = a :: r /\ In a r).
    { clear Hc Hc'. revert i j Hij Ha Hb. generalize (Init :: l) as m.
      induction m as [|x m IH]; intros i j Hij Ha Hb.
      - destruct i; discriminate.
      - destruct i as [|i].
        + simpl in Ha. injection Ha as ->. exists m. split; [reflexivity|].
          destruct j as [|j]; [lia|]. simpl in Hb. eapply nth_error_In; eauto.
        + destruct j as [|j]; [lia|]. simpl in Ha, Hb.
          apply (IH i j); [lia | assumption | assumption]. }
    destruct Hsplit as [r [Hr Hin]]. rewrite Hr in Hc'.
    destruct (chain_later r a a Hc' Hin) as [H|[H _]]; [lia | exact H].
Qed.

Lemma lifecycle_in_order_witness :
  let h := @lifecycle small_reader streaming_run "www.deribit.com" "443" "BTC-PERPETUAL" in
  (nth_error h 6 = Some Streaming /\ nth_error h 7 = Some Streaming) /\
  (firstn 7 h = stage_order /\ 6 <= 6) /\
  (follows Streaming Streaming = true
   \/ (Streaming = Streaming /\ Streaming = Streaming)
   \/ (active Streaming = true /\ Streaming = Failed)) /\
  Streaming = Streaming.
Proof.
  intros h.
  destruct (@lifecycle_in_order small_reader streaming_run
              "www.deribit.com" "443" "BTC-PERPETUAL") as [H1 [H2 H3]].
  split; [split; reflexivity|].
  split; [exact (H1 6 eq_refl)|].
  split; [exact (H2 6 Streaming Streaming eq_refl eq_refl)|].
  exact (H3 6 7 Streaming (le_n 7) eq_refl eq_refl).
Defined.

(* ------------------------------------------------------------------ *)
(** ** Failure *)

Section Failure.

Context {J : JsonReader}.

(** The error branch of every handler: the report, and nothing started. *)
Lemma dispatch_failed (h : bound_handler) (c : completion) (s : WebSocketClient) :
  failed (ec c) = true ->
  exists s',
    dispatch h c s = Returned s' /\
    control s' = Done /\
    log s' = (log s ++ [Complete h (ec c);
                        Cerr (label h ++ ": " ++ ec_message (ec c) ++ LF)])%list.
Proof.
  intros Hf. destruct h; unfold dispatch, on_resolve, on_connect, on_ssl_handshake,
    on_handshake, on_write, on_read, fail; rewrite Hf;
    (eexists; split; [reflexivity|]; split; [reflexivity|]);
    simpl; rewrite <- app_assoc; reflexivity.
Qed.

(** The other branch of every handler, when it returns, has started exactly
    one operation. *)
Lemma dispatch_succeeded (h : bound_handler) (c : completion) (s s' : WebSocketClient) :
  failed (ec c) = false -> dispatch h c s = Returned s' ->
  exists h', control s' = Awaiting h'.
Proof.
  intros Hf Hd. handler_paths Hd; try congruence; eexists; reflexivity.
Qed.

(** With nothing outstanding the loop returns at once, whatever the network
    would still deliver. *)
Lemma run_when_done (cs : list completion) (s : WebSocketClient) :
  control s = Done -> io_context_run cs s = Drained s /\ run_states cs s = [].
Proof. intros H. destruct cs; simpl; rewrite H; split; reflexivity. Qed.

Lemma run_cut_at_failure (cs1 : list completion) :
  forall (c : completion) (cs2 : list completion) (s : WebSocketClient),
    failed (ec c) = true ->
    io_context_run (cs1 ++ c :: cs2) s = io_context_run (cs1 ++ [c]) s /\
    run_states (cs1 ++ c :: cs2) s = run_states (cs1 ++ [c]) s.
Proof.
  induction cs1 as [|c1 cs1 IH]; intros c cs2 s Hf; simpl.
  - destruct (control s) as [|h|]; try (split; reflexivity).
    destruct (dispatch_failed h c s Hf) as [s' [Hd [Hc _]]]. rewrite Hd.
    destruct (run_when_done cs2 s' Hc) as [-> ->].
    rewrite Hc. split; reflexivity.
  - destruct (control s) as [|h|]; try (split; reflexivity).
    destruct (dispatch h c1 s) as [s'|what s']; [|split; reflexivity].
    destruct (IH c cs2 s' Hf) as [-> ->]. split; reflexivity.
Qed.

End Failure.

(** C4. [Failed] is absorbing.  Whatever operation is outstanding, when its
    handler takes the error branch the session ends with nothing outstanding,
    having logged only the call and the report of [fail]; from then on the
    loop returns the session as it is for every further delivery (no stage
    change, no operation started), and an execution is the same whatever
    follows a failed completion. *)
Theorem failed_is_absorbing {J : JsonReader} :
  forall (h : bound_handler) (c : completion) (s : WebSocketClient),
    control s = Awaiting h ->
    failed (ec c) = true ->
    (exists s',
        dispatch h c s = Returned s' /\
        stage_of s' = Failed /\
        log s' = (log s ++ [Complete h (ec c);
                            Cerr (label h ++ ": " ++ ec_message (ec c) ++ LF)])%list /\
        forall cs, io_context_run cs s' = Drained s' /\ run_states cs s' = []) /\
    (forall cs1 cs2 s0,
        io_context_run (cs1 ++ c :: cs2) s0 = io_context_run (cs1 ++ [c]) s0 /\
        run_states (cs1 ++ c :: cs2) s0 = run_states (cs1 ++ [c]) s0).
Proof.
  intros h c s Hc Hf. split.
  - destruct (dispatch_failed h c s Hf) as [s' [Hd [Hdone Hlog]]].
    exists s'. split; [exact Hd|]. split; [unfold stage_of; now rewrite Hdone|].
    split; [exact Hlog|]. intros cs. now apply run_when_done.
  - intros cs1 cs2 s0. now apply run_cut_at_failure.
Qed.

Lemma failed_is_absorbing_witness :
  let s := btc_session in
  control s = Awaiting OnResolve /\ failed (ec broke) = true /\
  (forall cs1 cs2 s0,
      @io_context_run small_reader (cs1 ++ broke :: cs2) s0
      = @io_context_run small_reader (cs1 ++ [broke]) s0 /\
      @run_states small_reader (cs1 ++ broke :: cs2) s0
      = @run_states small_reader (cs1 ++ [broke]) s0).
Proof.
  split; [reflexivity|]. split; [reflexivity|].
  exact (proj2 (@failed_is_absorbing small_reader OnResolve broke btc_session
                  eq_refl eq_refl)).
Defined.

(* ------------------------------------------------------------------ *)
(** ** One subscription per session *)

Section Writes.

Context {J : JsonReader}.

Lemma writes_match_handshake_step
  (h : bound_handler) (c : completion) (s s' : WebSocketClient) :
  writes_match_handshake s -> control s = Awaiting h ->
  dispatch h c s = Returned s' -> writes_match_handshake s'.
Proof.
  unfold writes_match_handshake. intros [Hn Hh] Hc Hd. rewrite Hc in Hh.
  handler_paths Hd;
    cbn [log control emit start with_control with_host with_buffer];
    repeat rewrite count_writes_app; repeat rewrite handshake_succeeded_app;
    rewrite Hn, Hh; cbn [handshake_succeeded existsb count_writes filter is_write
                           List.length orb];
    repeat match goal with H : failed _ = _ |- _ => rewrite H end;
    cbn [negb orb]; split; auto.
Qed.

Lemma visited_writes_match_handshake (cs : list completion)
  (host port instrument : string) (s : WebSocketClient) :
  In s (visited cs host port instrument) -> writes_match_handshake s.
Proof.
  revert cs s. apply visited_invariant.
  - split; reflexivity.
  - intros h c s s' Hs Hc Hd. eapply writes_match_handshake_step; eauto.
  - unfold writes_match_handshake, left_by_reader. intros c s [Hn _] _.
    cbn [log control emit with_control with_buffer].
    rewrite count_writes_app, handshake_succeeded_app, Hn.
    cbn. rewrite Nat.add_0_r, orb_false_r. split; [reflexivity | exact I].
Qed.

End Writes.

(** C5. At every point of every execution the subscription has been written
    at most once, and it has been written exactly when [on_handshake] has
    been called with a clear error code: before that no write is in the log,
    after it exactly one, whatever handlers have run since.  The write is
    started by that very call of [on_handshake], right after it. *)
Theorem subscription_written_once {J : JsonReader} :
  forall (cs : list completion) (host port instrument : string) (s : WebSocketClient),
    In s (visited cs host port instrument) ->
    count_writes (log s) <= 1 /\
    (count_writes (log s) = 1 <-> handshake_succeeded (log s) = true) /\
    (forall c s',
        control s = Awaiting OnHandshake -> failed (ec c) = false ->
        dispatch OnHandshake c s = Returned s' ->
        log s' = (log s ++ [Complete OnHandshake (ec c);
                            Issue (async_write
                                     (Json.FastWriter_write (request_for instrument)))])%list).
Proof.
  intros cs host port instrument s Hin.
  destruct (visited_writes_match_handshake cs host port instrument s Hin) as [Hn _].
  destruct (visited_instrument_and_writes cs host port instrument s Hin) as [Hi _].
  rewrite Hn. destruct (handshake_succeeded (log s)).
  - split; [lia|]. split; [tauto|].
    intros c s' Hc Hf Hd. unfold dispatch, on_handshake in Hd. rewrite Hf in Hd.
    rewrite subscribe_to_orderbook_writes in Hd. injection Hd as <-.
    simpl. rewrite Hi, <- app_assoc. reflexivity.
  - split; [lia|]. split; [split; discriminate|].
    intros c s' Hc Hf Hd. unfold dispatch, on_handshake in Hd. rewrite Hf in Hd.
    rewrite subscribe_to_orderbook_writes in Hd. injection Hd as <-.
    simpl. rewrite Hi, <- app_assoc. reflexivity.
Qed.

Lemma subscription_written_once_witness :
  let s := session_of (@io_context_run small_reader handshaken btc_session) in
  In s (@visited small_reader handshaken "www.deribit.com" "443" "BTC-PERPETUAL") /\
  count_writes (log s) <= 1 /\
  (count_writes (log s) = 1 <-> handshake_succeeded (log s) = true).
Proof.
  assert (Hin : In (session_of (@io_context_run small_reader handshaken btc_session))
                  (@visited small_reader handshaken "www.deribit.com" "443"
                     "BTC-PERPETUAL"))
    by (vm_compute; tauto).
  split; [exact Hin|].
  destruct (@subscription_written_once small_reader handshaken
              "www.deribit.com" "443" "BTC-PERPETUAL" _ Hin) as [H1 [H2 _]].
  split; [exact H1 | exact H2].
Defined.

(* ------------------------------------------------------------------ *)
(** ** The receive buffer and the message pump *)

Section Pump.

Context {J : JsonReader}.

Lemma reads_start_empty_step
  (h : bound_handler) (c : completion) (s s' : WebSocketClient) :
  reads_start_empty s -> control s = Awaiting h ->
  dispatch h c s = Returned s' -> reads_start_empty s'.
Proof.
  unfold reads_start_empty. intros [Hlog Hbuf] Hc Hd.
  assert (Hb : buffer_ s = "") by (apply Hbuf; rewrite Hc; discriminate).
  handler_paths Hd;
    cbn [log control buffer_ emit start with_control with_host with_buffer];
    rewrite ?consume_all, ?Hb;
    (split; [| try (intros _; reflexivity); try (intros H; now elim H)]);
    intros b Hin;
    repeat (apply in_app_or in Hin; destruct Hin as [Hin|Hin]);
    try (now apply Hlog);
    simpl in Hin; repeat (destruct Hin as [Hin|Hin]; try discriminate Hin);
    try contradiction;
    injection Hin as <-; reflexivity.
Qed.

Lemma visited_reads_start_empty (cs : list completion)
  (host port instrument : string) (s : WebSocketClient) :
  In s (visited cs host port instrument) -> reads_start_empty s.
Proof.
  revert cs s. apply visited_invariant.
  - split; [|reflexivity]. simpl. intros b [H|[]]. discriminate H.
  - intros h c s s' Hs Hc Hd. eapply reads_start_empty_step; eauto.
  - unfold reads_start_empty, left_by_reader. intros c s [Hlog _] _.
    cbn [log control emit with_control with_buffer]. split.
    + intros b Hin. apply in_app_or in Hin. destruct Hin as [Hin|[Hin|[]]].
      * now apply Hlog.
      * discriminate Hin.
    + intros H. now elim H.
Qed.

End Pump.




(** C7. In every execution every read is started on an empty buffer: each
    read in the log, and so each read the process puts out, found [buffer_]
    empty, and [buffer_] is empty whenever a read is outstanding, be it the
    first after the subscription or one started again by [on_read] after a
    payload that parsed or one that did not. *)
Theorem buffer_empty_before_every_read {J : JsonReader} :
  (forall (cs : list completion) (host port instrument : string) (s : WebSocketClient),
      In s (visited cs host port instrument) ->
      (forall b, In (Issue (async_read b)) (log s) -> String.length b = 0) /\
      (control s = Awaiting OnRead -> String.length (buffer_ s) = 0)) /\
  (forall (env : environment) (b : string),
      In (Issue (async_read b)) (output (main env)) -> String.length b = 0).
Proof.
  split.
  - intros cs host port instrument s Hin.
    destruct (visited_reads_start_empty cs host port instrument s Hin) as [Hlog Hbuf].
    split.
    + intros b Hb. now rewrite (Hlog b Hb).
    + intros Hc. rewrite Hbuf; [reflexivity | rewrite Hc; discriminate].
  - intros env b Hin.
    destruct (main_output_from_session env _ Hin eq_refl) as [s [Hs He]];
      [intros text; discriminate|].
    destruct (visited_reads_start_empty _ _ _ _ s Hs) as [Hlog _].
    now rewrite (Hlog b He).
Qed.

Lemma buffer_empty_before_every_read_witness :
  let env := {| stdin_line := "BTC-PERPETUAL"; throws := never_throws;
                completions := streaming_run |} in
  let s := session_of (@io_context_run small_reader streaming_run btc_session) in
  (In s (@visited small_reader streaming_run "www.deribit.com" "443" "BTC-PERPETUAL") /\
   In (Issue (async_read "")) (log s) /\
   In (Issue (async_read "")) (output (@main small_reader env)) /\
   count_reads (output (@main small_reader env)) = 3) /\
  String.length "" = 0 /\ String.length "" = 0.
Proof.
  assert (Hs : In (session_of (@io_context_run small_reader streaming_run btc_session))
                 (@visited small_reader streaming_run "www.deribit.com" "443"
                    "BTC-PERPETUAL"))
    by (vm_compute; tauto).
  assert (Hl : In (Issue (async_read ""))
                 (log (session_of (@io_context_run small_reader streaming_run
                                     btc_session))))
    by (vm_compute; tauto).
  assert (Hin : In (Issue (async_read ""))
                  (output (@main small_reader
                             {| stdin_line := "BTC-PERPETUAL"; throws := never_throws;
                                completions := streaming_run |})))
    by (vm_compute; tauto).
  split; [repeat split; solve [assumption | vm_compute; reflexivity]|].
  split.
  - exact (proj1 (proj1 (@buffer_empty_before_every_read small_reader) _ _ _ _ _ Hs)
             _ Hl).
  - exact (proj2 (@buffer_empty_before_every_read small_reader) _ _ Hin).
Defined.

(** A payload that parses is printed once, pretty-printed, on the output
    sink, and the next read is started. *)
Lemma parsed_message_printed_once {J : JsonReader} :
  forall (cs : list completion) (host port instrument : string)
         (s : WebSocketClient) (c : completion) (root : Root),
    In s (visited cs host port instrument) ->
    control s = Awaiting OnRead ->
    failed (ec c) = false ->
    Reader_parse (received c) = Parsed root ->
    exists s',
      dispatch OnRead c s = Returned s' /\
      log s' = (log s ++ [Complete OnRead (ec c);
                          Cout ("Received message:" ++ LF ++ toStyledString root ++ LF);
                          Issue (async_read "")])%list /\
      stage_of s' = Streaming.
Proof.
  intros cs host port instrument s c root Hin Hc Hf Hp.
  destruct (visited_reads_start_empty cs host port instrument s Hin) as [_ Hbuf].
  assert (Hb : buffer_ s = "") by (apply Hbuf; rewrite Hc; discriminate).
  eexists. split.
  - unfold dispatch, on_read. rewrite Hf.
    cbn [buffer_ with_buffer emit with_control]. rewrite Hb.
    change ("" ++ received c) with (received c). rewrite Hp. reflexivity.
  - unfold clear_and_read.
    cbn [log control buffer_ emit start with_control with_buffer read stage_of].
    rewrite consume_all, <- !app_assoc. split; reflexivity.
Qed.

Lemma parsed_message_printed_once_witness :
  let s := session_of (@io_context_run small_reader
                         (handshaken ++ [completed ""]) btc_session) in
  let c := completed "{}" in
  (In s (@visited small_reader (handshaken ++ [completed ""])
           "www.deribit.com" "443" "BTC-PERPETUAL") /\
   control s = Awaiting OnRead /\
   failed (ec c) = false /\
   @Reader_parse small_reader (received c) = Parsed tt) /\
  exists s',
    @dispatch small_reader OnRead c s = Returned s' /\
    log s' = (log s ++ [Complete OnRead (ec c);
                        Cout ("Received message:" ++ LF
                                ++ @toStyledString small_reader tt ++ LF);
                        Issue (async_read "")])%list /\
    stage_of s' = Streaming.
Proof.
  assert (Hin : In (session_of (@io_context_run small_reader
                                  (handshaken ++ [completed ""]) btc_session))
                  (@visited small_reader (handshaken ++ [completed ""])
                     "www.deribit.com" "443" "BTC-PERPETUAL"))
    by (vm_compute; tauto).
  split; [repeat split; solve [exact Hin | reflexivity]|].
  exact (@parsed_message_printed_once small_reader
           (handshaken ++ [completed ""]) "www.deribit.com" "443"
           "BTC-PERPETUAL" _ (completed "{}") tt Hin eq_refl eq_refl eq_refl).
Defined.

(* ------------------------------------------------------------------ *)
(** ** How the process ends *)

Lemma count_issues_app (l1 l2 : list event) :
  count_issues (l1 ++ l2) = count_issues l1 + count_issues l2.
Proof. unfold count_issues. rewrite filter_app, length_app. reflexivity. Qed.

Lemma handler_after_succ (n : nat) :
  handler_after (S n) = next_handler (handler_after n).
Proof. reflexivity. Qed.

Lemma handler_after_early (n : nat) : n < 5 -> handler_after n <> OnRead.
Proof.
  intros Hn. do 5 (destruct n as [|n]; [discriminate|]). lia.
Qed.

Lemma handler_after_read (n : nat) : 5 <= n -> handler_after n = OnRead.
Proof.
  intros Hn. replace n with (5 + (n - 5)) by lia.
  induction (n - 5) as [|k IH]; [reflexivity|].
  rewrite Nat.add_succ_r, handler_after_succ, IH. reflexivity.
Qed.

(** Membership past a cut, one element further on. *)
Lemma in_skipn_cons {A : Type} (n : nat) (x y : A) (l : list A) :
  In y (skipn (5 - S n) l) -> In y (skipn (5 - n) (x :: l)).
Proof.
  intros Hy. destruct (Nat.lt_ge_cases n 5) as [Hn|Hn].
  - replace (5 - n) with (S (5 - S n)) by lia. exact Hy.
  - replace (5 - n) with 0 by lia. replace (5 - S n) with 0 in Hy by lia.
    right. exact Hy.
Qed.

Section Exit.

Context {J : JsonReader}.

(** The success branch of every handler starts one operation, bound to the
    next handler, unless it is [on_read] and the reader throws. *)
Lemma dispatch_advances (h : bound_handler) (c : completion) (s : WebSocketClient) :
  failed (ec c) = false ->
  buffer_ s = "" ->
  (h = OnRead -> reader_throws_on (received c) = false) ->
  exists s',
    dispatch h c s = Returned s' /\
    control s' = Awaiting (next_handler h) /\
    buffer_ s' = "" /\
    count_issues (log s') = S (count_issues (log s)).
Proof.
  intros Hf Hb Hr.
  destruct h; unfold dispatch, on_resolve, on_connect, on_ssl_handshake,
    on_handshake, on_write, on_read, clear_and_read, read; rewrite Hf;
    try rewrite subscribe_to_orderbook_writes;
    cbn [buffer_ with_buffer emit with_control start with_host].
  6: { rewrite Hb. change ("" ++ received c) with (received c).
       specialize (Hr eq_refl). unfold reader_throws_on in Hr.
       destruct (Reader_parse (received c)); [| |discriminate Hr];
         (eexists; split; [reflexivity|]);
         cbn [log control buffer_ emit start with_control with_buffer next_handler];
         rewrite consume_all; repeat rewrite count_issues_app; cbn;
         repeat split; lia. }
  all: eexists; split; [reflexivity|];
    cbn [log control buffer_ emit start with_control with_buffer with_host
           next_handler];
    repeat rewrite count_issues_app; cbn; repeat split; solve [exact Hb | lia].
Qed.

(** A read that completes without error on a payload the reader throws on. *)
Lemma dispatch_throws (c : completion) (s : WebSocketClient) (what : string) :
  failed (ec c) = false -> buffer_ s = "" ->
  Reader_parse (received c) = ReaderThrew what ->
  dispatch OnRead c s = Raised what (left_by_reader c s).
Proof.
  intros Hf Hb Hp.
  assert (Hp' : Reader_parse (buffer_ s ++ received c) = ReaderThrew what)
    by (rewrite Hb; exact Hp).
  unfold dispatch, on_read. rewrite Hf.
  cbn [buffer_ with_buffer emit with_control]. rewrite Hp'. reflexivity.
Qed.

(** Completions that are clear, with payloads the reader does not throw on
    from the sixth on (the reads), are all delivered; the session then waits
    for the handler that many steps further on. *)
Lemma run_through_clear (pre : list completion) :
  forall (rest : list completion) (s : WebSocketClient) (n : nat),
    control s = Awaiting (handler_after n) ->
    buffer_ s = "" ->
    (forall c, In c pre -> failed (ec c) = false) ->
    (forall c, In c (skipn (5 - n) pre) -> reader_throws_on (received c) = false) ->
    exists s',
      io_context_run (pre ++ rest) s = io_context_run rest s' /\
      control s' = Awaiting (handler_after (n + List.length pre)) /\
      buffer_ s' = "" /\
      count_issues (log s') = count_issues (log s) + List.length pre.
Proof.
  induction pre as [|c pre IH]; intros rest s n Hc Hb Hall Hret.
  - exists s. rewrite Nat.add_0_r. simpl. repeat split; [exact Hc | exact Hb | lia].
  - assert (Hr : handler_after n = OnRead -> reader_throws_on (received c) = false).
    { intros Hh. apply Hret.
      destruct (Nat.lt_ge_cases n 5) as [Hn|Hn];
        [now elim (handler_after_early n Hn)|].
      replace (5 - n) with 0 by lia. now left. }
    destruct (dispatch_advances (handler_after n) c s
                (Hall c (or_introl eq_refl)) Hb Hr)
      as [s1 [Hd [Hc1 [Hb1 Hn1]]]].
    destruct (IH rest s1 (S n) Hc1 Hb1 (fun x Hx => Hall x (or_intror Hx))
                (fun x Hx => Hret x (in_skipn_cons n c x pre Hx)))
      as [s' [Hrun [Hc' [Hb' Hn']]]].
    exists s'. simpl. rewrite Hc, Hd. split; [exact Hrun|].
    split; [now rewrite Nat.add_succ_r|]. split; [exact Hb' | simpl in *; lia].
Qed.

(** How a run can end, by what is delivered: every completion is clear and
    the reader throws on no payload read, and the run is still waiting; or
    the first completion that is not like that carries an error, and the run
    returns; or it is a read on whose payload the reader throws, and the
    exception leaves the run. *)
Lemma run_classified (cs : list completion) :
  forall (s : WebSocketClient) (n : nat),
    control s = Awaiting (handler_after n) ->
    buffer_ s = "" ->
    ((forall c, In c cs -> failed (ec c) = false) /\
     (forall c, In c (skipn (5 - n) cs) -> reader_throws_on (received c) = false) /\
     exists s', io_context_run cs s = Waiting s')
    \/
    (exists pre c post,
        cs = (pre ++ c :: post)%list /\
        (forall x, In x pre -> failed (ec x) = false) /\
        (forall x, In x (skipn (5 - n) pre) -> reader_throws_on (received x) = false) /\
        failed (ec c) = true /\
        exists s', io_context_run cs s = Drained s')
    \/
    (exists pre c post what,
        cs = (pre ++ c :: post)%list /\
        5 <= n + List.length pre /\
        (forall x, In x pre -> failed (ec x) = false) /\
        (forall x, In x (skipn (5 - n) pre) -> reader_throws_on (received x) = false) /\
        failed (ec c) = false /\
        Reader_parse (received c) = ReaderThrew what /\
        exists s', io_context_run cs s = Threw what s').
Proof.
  induction cs as [|c cs IH]; intros s n Hc Hb.
  - left. split; [intros c []|]. split.
    + intros c Hin. destruct (5 - n); destruct Hin.
    + exists s. simpl. now rewrite Hc.
  - destruct (failed (ec c)) eqn:Hf.
    { right. left. exists [], c, cs. split; [reflexivity|].
      split; [intros x []|]. split; [intros x Hx; destruct (5 - n); destruct Hx|].
      split; [exact Hf|].
      destruct (dispatch_failed (handler_after n) c s Hf) as [s' [Hd [Hdone _]]].
      exists s'. simpl. rewrite Hc, Hd. now apply run_when_done. }
    destruct (Nat.lt_ge_cases n 5) as [Hn|Hn].
    + (* not yet reading *)
      destruct (dispatch_advances (handler_after n) c s Hf Hb
                  (fun Hh => False_ind _ (handler_after_early n Hn Hh)))
        as [s1 [Hd [Hc1 [Hb1 _]]]].
      destruct (IH s1 (S n) Hc1 Hb1)
        as [[Hall [Hret [s' Hr]]]
           |[[pre [x [post [-> [Hall [Hret [Hfx [s' Hr]]]]]]]]
            |[pre [x [post [what [-> [Hlen [Hall [Hret [Hfx [Hpx [s' Hr]]]]]]]]]]]]].
      * left. split; [intros y [<-|Hy]; auto|]. split.
        -- replace (5 - n) with (S (5 - S n)) by lia. exact Hret.
        -- exists s'. simpl. rewrite Hc, Hd. exact Hr.
      * right. left. exists (c :: pre), x, post. split; [reflexivity|].
        split; [intros y [<-|Hy]; auto|]. split.
        -- replace (5 - n) with (S (5 - S n)) by lia. exact Hret.
        -- split; [exact Hfx|]. exists s'. simpl. rewrite Hc, Hd. exact Hr.
      * right. right. exists (c :: pre), x, post, what. split; [reflexivity|].
        split; [simpl; lia|]. split; [intros y [<-|Hy]; auto|]. split.
        -- replace (5 - n) with (S (5 - S n)) by lia. exact Hret.
        -- split; [exact Hfx|]. split; [exact Hpx|].
           exists s'. simpl. rewrite Hc, Hd. exact Hr.
    + (* reading *)
      pose proof (handler_after_read n Hn) as Hh.
      replace (5 - n) with 0 by lia. simpl skipn.
      destruct (Reader_parse (received c)) as [root| |what] eqn:Hp.
      3: { right. right. exists [], c, cs, what. split; [reflexivity|].
           split; [simpl; lia|]. split; [intros x []|]. split; [intros x []|].
           split; [exact Hf|]. split; [exact Hp|].
           exists (left_by_reader c s). simpl. rewrite Hc, Hh.
           now rewrite (dispatch_throws c s what Hf Hb Hp). }
      all: assert (Hrc : reader_throws_on (received c) = false)
             by (unfold reader_throws_on; now rewrite Hp);
        destruct (dispatch_advances (handler_after n) c s Hf Hb (fun _ => Hrc))
          as [s1 [Hd [Hc1 [Hb1 _]]]];
        destruct (IH s1 (S n) Hc1 Hb1)
          as [[Hall [Hret [s' Hr]]]
             |[[pre [x [post [-> [Hall [Hret [Hfx [s' Hr]]]]]]]]
              |[pre [x [post [what [-> [Hlen [Hall [Hret [Hfx [Hpx [s' Hr]]]]]]]]]]]]];
        replace (5 - S n) with 0 in Hret by lia; simpl skipn in Hret;
        [ left; split; [intros y [<-|Hy]; auto|];
          split; [intros y [<-|Hy]; auto|];
          exists s'; simpl; rewrite Hc, Hd; exact Hr
        | right; left; exists (c :: pre), x, post; split; [reflexivity|];
          split; [intros y [<-|Hy]; auto|];
          split; [intros y [<-|Hy]; auto|];
          split; [exact Hfx|]; exists s'; simpl; rewrite Hc, Hd; exact Hr
        | right; right; exists (c :: pre), x, post, what; split; [reflexivity|];
          split; [simpl; lia|];
          split; [intros y [<-|Hy]; auto|];
          split; [intros y [<-|Hy]; auto|];
          split; [exact Hfx|]; split; [exact Hpx|];
          exists s'; simpl; rewrite Hc, Hd; exact Hr ].
Qed.

(** What [main] comes to once the set-up has gone through. *)
Lemma main_after_setup (env : environment) :
  stdin_line env <> "" ->
  (forall st, throws env st = None) ->
  exists out,
    forallb preamble out = true /\
    main env =
    match io_context_run (completions env)
            (started "www.deribit.com" "443" (stdin_line env)) with
    | Drained s => {| exit_status := Some EXIT_SUCCESS; output := out ++ log s |}
    | Threw what s => caught what (out ++ log s)
    | Waiting s => {| exit_status := None; output := out ++ log s |}
    end.
Proof.
  intros Hline Hthrows. unfold main.
  destruct (stdin_line env) as [|a r]; [congruence|].
  pose proof (perform_spec (throws env) setup_steps
                [Cout "Enter the instrument name (e.g., BTC-PERPETUAL): "] eq_refl) as Hp.
  destruct (perform (throws env) setup_steps _) as [[what out]|out].
  - destruct Hp as [_ [st Hst]]. rewrite Hthrows in Hst. discriminate.
  - destruct Hp as [Hp _]. exists out. split; [exact Hp | reflexivity].
Qed.

End Exit.

(** C9. If the line read at startup is empty the process exits with
    [EXIT_FAILURE], which is not zero, having put out only the prompt and the
    error message: no step of the networking set-up is taken (no io_context,
    TLS context or client is made) and no operation, a resolve included, is
    started. *)
Theorem empty_instrument_exits_early {J : JsonReader} :
  forall env : environment,
    stdin_line env = "" ->
    exit_status (main env) = Some EXIT_FAILURE /\
    EXIT_FAILURE <> 0%Z /\
    output (main env) =
      [Cout "Enter the instrument name (e.g., BTC-PERPETUAL): ";
       Cerr ("Error: Instrument name cannot be empty." ++ LF)] /\
    (forall st, ~ In (Setup st) (output (main env))) /\
    (forall op, ~ In (Issue op) (output (main env))).
Proof.
  intros env Hline. unfold main. rewrite Hline. cbn [exit_status output].
  split; [reflexivity|]. split; [discriminate|]. split; [reflexivity|].
  split; intros x [H|[H|[]]]; discriminate H.
Qed.

Lemma empty_instrument_exits_early_witness :
  let env := {| stdin_line := ""; throws := never_throws; completions := streaming_run |} in
  stdin_line env = "" /\ exit_status (@main small_reader env) = Some EXIT_FAILURE.
Proof.
  split; [reflexivity|].
  exact (proj1 (@empty_instrument_exits_early small_reader
                  {| stdin_line := ""; throws := never_throws;
                     completions := streaming_run |} eq_refl)).
Defined.




(* ------------------------------------------------------------------ *)
(** ** Operations started and completed *)

Lemma count_completes_app (l1 l2 : list event) :
  count_completes (l1 ++ l2) = count_completes l1 + count_completes l2.
Proof. unfold count_completes. rewrite filter_app, length_app. reflexivity. Qed.

Lemma count_kind_app (k : op_kind) (l1 l2 : list event) :
  count_kind k (l1 ++ l2) = count_kind k l1 + count_kind k l2.
Proof. unfold count_kind. rewrite filter_app, length_app. reflexivity. Qed.

Section Operations.

Context {J : JsonReader}.

Lemma outstanding_step (h : bound_handler) (c : completion) (s s' : WebSocketClient) :
  count_issues (log s) = count_completes (log s) + 1 ->
  dispatch h c s = Returned s' ->
  count_issues (log s')
  = count_completes (log s') + match control s' with Awaiting _ => 1 | _ => 0 end.
Proof.
  intros Hn Hd.
  handler_paths Hd;
    cbn [log control emit start with_control with_host with_buffer];
    repeat rewrite count_issues_app; repeat rewrite count_completes_app;
    rewrite Hn; cbn; lia.
Qed.

(** The kinds of operation started so far are those up to some rank, each
    started once; while an operation is outstanding the rank is its own. *)
Lemma started_in_order_step
  (h : bound_handler) (c : completion) (s s' : WebSocketClient) (r : nat) :
  (forall k, kind_rank k < 5 ->
             count_kind k (log s) = if Nat.leb (kind_rank k) r then 1 else 0) ->
  control s = Awaiting h -> r = kind_rank (kind_completed h) ->
  dispatch h c s = Returned s' ->
  exists r',
    (forall k, kind_rank k < 5 ->
               count_kind k (log s') = if Nat.leb (kind_rank k) r' then 1 else 0) /\
    (forall h', control s' = Awaiting h' -> r' = kind_rank (kind_completed h')).
Proof.
  intros Hcount Hc -> Hd.
  set (old := kind_rank (kind_completed h)) in *.
  set (new := kind_rank (kind_completed (next_handler h))).
  handler_paths Hd;
    match goal with
    | H : failed _ = true |- _ => exists old
    | H : failed _ = false |- _ => exists new
    end;
    (split;
     [ intros k Hk;
       cbn [log control emit start with_control with_host with_buffer];
       repeat rewrite count_kind_app; rewrite (Hcount k Hk);
       destruct k; cbn in Hk |- *; solve [reflexivity | lia]
     | intros h' Hh'; cbn in Hh'; try discriminate Hh';
       injection Hh' as <-; reflexivity ]).
Qed.

End Operations.

(** In every execution exactly one operation is outstanding while the session
    is alive and none once it has failed: the operations started are the
    completions delivered plus the one waited for. *)
Theorem one_operation_outstanding {J : JsonReader} :
  forall (cs : list completion) (host port instrument : string) (s : WebSocketClient),
    In s (visited cs host port instrument) ->
    count_issues (log s)
    = count_completes (log s) + match control s with Awaiting _ => 1 | _ => 0 end.
Proof.
  intros cs host port instrument. apply visited_invariant.
  - reflexivity.
  - intros h c s s' Hs Hc Hd. rewrite Hc in Hs.
    eapply outstanding_step; eauto.
  - intros c s Hs Hc. rewrite Hc in Hs. unfold left_by_reader.
    cbn [log control emit with_control with_buffer].
    rewrite count_issues_app, count_completes_app, Hs. cbn. lia.
Qed.

Lemma one_operation_outstanding_witness :
  let s := session_of (@io_context_run small_reader streaming_run btc_session) in
  In s (@visited small_reader streaming_run "www.deribit.com" "443" "BTC-PERPETUAL") /\
  count_issues (log s) = 8 /\ count_completes (log s) = 8 /\ control s = Done.
Proof.
  assert (Hin : In (session_of (@io_context_run small_reader streaming_run btc_session))
                  (@visited small_reader streaming_run "www.deribit.com" "443"
                     "BTC-PERPETUAL"))
    by (vm_compute; tauto).
  split; [exact Hin|].
  pose proof (@one_operation_outstanding small_reader streaming_run
                "www.deribit.com" "443" "BTC-PERPETUAL" _ Hin) as H.
  split; [rewrite H|]; split; reflexivity.
Defined.

(** In every execution the resolve, the connect, the TLS handshake, the
    WebSocket handshake and the write are each started at most once (nothing
    is retried), and one of them has been started only if every earlier one
    has. *)
Theorem setup_operations_started_once {J : JsonReader} :
  forall (cs : list completion) (host port instrument : string) (s : WebSocketClient),
    In s (visited cs host port instrument) ->
    forall k, k <> KRead ->
      count_kind k (log s) <= 1 /\
      (count_kind k (log s) = 1 ->
       forall k', kind_rank k' <= kind_rank k -> count_kind k' (log s) = 1).
Proof.
  intros cs host port instrument s Hin.
  assert (Hinv : exists r,
             (forall k, kind_rank k < 5 ->
                        count_kind k (log s) = if Nat.leb (kind_rank k) r then 1 else 0) /\
             (forall h, control s = Awaiting h -> r = kind_rank (kind_completed h))).
  { revert cs s Hin. apply visited_invariant.
    - exists 0. split.
      + intros k Hk. destruct k; cbn in Hk |- *; solve [reflexivity | lia].
      + intros h Hh. cbn in Hh. injection Hh as <-. reflexivity.
    - intros h c s s' [r [Hcount Hr]] Hc Hd.
      eapply started_in_order_step; eauto.
    - intros c s [r [Hcount Hr]] Hc. exists r. unfold left_by_reader.
      cbn [log control emit with_control with_buffer]. split.
      + intros k Hk. rewrite count_kind_app, (Hcount k Hk). cbn. lia.
      + intros h Hh. discriminate Hh. }
  destruct Hinv as [r [Hcount _]]. intros k Hk.
  assert (Hlt : kind_rank k < 5) by (destruct k; cbn; try lia; congruence).
  rewrite (Hcount k Hlt). split.
  - destruct (Nat.leb (kind_rank k) r); lia.
  - intros H1 k' Hle.
    assert (Hlt' : kind_rank k' < 5) by lia.
    rewrite (Hcount k' Hlt').
    destruct (Nat.leb (kind_rank k) r) eqn:E; [|discriminate H1].
    apply Nat.leb_le in E.
    assert (E' : Nat.leb (kind_rank k') r = true) by (apply Nat.leb_le; lia).
    now rewrite E'.
Qed.

Lemma setup_operations_started_once_witness :
  let s := session_of (@io_context_run small_reader streaming_run btc_session) in
  (In s (@visited small_reader streaming_run "www.deribit.com" "443" "BTC-PERPETUAL") /\
   KWrite <> KRead /\ count_kind KWrite (log s) = 1 /\
   kind_rank KResolve <= kind_rank KWrite) /\
  count_kind KWrite (log s) <= 1 /\ count_kind KResolve (log s) = 1.
Proof.
  assert (Hin : In (session_of (@io_context_run small_reader streaming_run btc_session))
                  (@visited small_reader streaming_run "www.deribit.com" "443"
                     "BTC-PERPETUAL"))
    by (vm_compute; tauto).
  assert (Hk : KWrite <> KRead) by discriminate.
  assert (Hle : kind_rank KResolve <= kind_rank KWrite) by (cbn; lia).
  split; [repeat split; solve [assumption | discriminate | reflexivity]|].
  destruct (@setup_operations_started_once small_reader streaming_run
              "www.deribit.com" "443" "BTC-PERPETUAL" _ Hin KWrite Hk) as [H1 H2].
  split; [exact H1 | exact (H2 eq_refl KResolve Hle)].
Defined.

(* ------------------------------------------------------------------ *)
(** ** The handshake host and the timeout settings *)

Lemma timeout_settings_app (l1 l2 : list event) :
  timeout_settings (l1 ++ l2) = (timeout_settings l1 ++ timeout_settings l2)%list.
Proof.
  induction l1 as [|e r IH]; [reflexivity|].
  destruct e; simpl; rewrite ?IH; reflexivity.
Qed.

Section Handshake.

Context {J : JsonReader}.

(** Past the connect, [host_] stays as it is and every WebSocket handshake
    started names it, with the fixed path. *)
Lemma upgrade_target_step (H : string)
  (h : bound_handler) (c : completion) (s s' : WebSocketClient) :
  (control s <> Awaiting OnResolve /\ control s <> Awaiting OnConnect /\
   host_ s = H /\
   forall a t, In (Issue (ws_async_handshake a t)) (log s) -> t = "/ws/api/v2" /\ a = H) ->
  control s = Awaiting h -> dispatch h c s = Returned s' ->
  control s' <> Awaiting OnResolve /\ control s' <> Awaiting OnConnect /\
  host_ s' = H /\
  forall a t, In (Issue (ws_async_handshake a t)) (log s') -> t = "/ws/api/v2" /\ a = H.
Proof.
  intros [H1 [H2 [Hh Hl]]] Hc Hd.
  handler_paths Hd; try congruence;
    cbn [log control host_ emit start with_control with_host with_buffer];
    (split; [discriminate|]; split; [discriminate|]; split; [exact Hh|]);
    intros a t Hin;
    repeat (apply in_app_or in Hin; destruct Hin as [Hin|Hin]);
    try (now apply Hl);
    simpl in Hin; repeat (destruct Hin as [Hin|Hin]; try discriminate Hin);
    try contradiction;
    injection Hin as <- <-; split; [reflexivity | exact Hh].
Qed.

Lemma run_states_step (h : bound_handler) (c : completion) (cs : list completion)
  (s s' : WebSocketClient) :
  control s = Awaiting h -> dispatch h c s = Returned s' ->
  run_states (c :: cs) s = s' :: run_states cs s'.
Proof. intros Hc Hd. simpl. rewrite Hc, Hd. reflexivity. Qed.

Lemma on_resolve_succeeds (c : completion) (s : WebSocketClient) :
  failed (ec c) = false ->
  dispatch OnResolve c s
  = Returned (s |> with_control Done |> emit (Complete OnResolve (ec c))
                |> emit (ExpiresAfter 30)
                |> start (async_connect (results c)) OnConnect).
Proof. intros Hf. unfold dispatch, on_resolve. rewrite Hf. reflexivity. Qed.

Lemma on_connect_succeeds (c : completion) (s : WebSocketClient) :
  failed (ec c) = false ->
  dispatch OnConnect c s
  = Returned (s |> with_control Done |> emit (Complete OnConnect (ec c))
                |> with_host (host_ s ++ ":" ++ to_string (ep_port (peer c)))
                |> emit (ExpiresAfter 30)
                |> start ssl_async_handshake OnSslHandshake).
Proof. intros Hf. unfold dispatch, on_connect. rewrite Hf. reflexivity. Qed.

Lemma upgrade_target (cs : list completion) (host port instrument : string)
  (s : WebSocketClient) (a t : string) :
  In s (visited cs host port instrument) ->
  In (Issue (ws_async_handshake a t)) (log s) ->
  t = "/ws/api/v2" /\
  exists c1 c2 rest,
    cs = c1 :: c2 :: rest /\ a = host ++ ":" ++ to_string (ep_port (peer c2)).
Proof.
  unfold visited. intros Hs Ha.
  assert (Hnone : forall l, In (Issue (ws_async_handshake a t)) l ->
                            forallb (fun e => negb (is_kind KUpgrade e)) l = true ->
                            False).
  { intros l Hin Hall. rewrite forallb_forall in Hall.
    specialize (Hall _ Hin). discriminate Hall. }
  destruct Hs as [<-|Hs]; [exact (False_ind _ (Hnone _ Ha eq_refl))|].
  destruct cs as [|c1 cs]; [destruct Hs|].
  destruct (failed (ec c1)) eqn:Hf1.
  { destruct (dispatch_failed OnResolve c1 (started host port instrument) Hf1)
      as [s1 [Hd [Hdone Hlog]]].
    rewrite (run_states_step OnResolve c1 cs (started host port instrument) s1
               eq_refl Hd) in Hs.
    rewrite (proj2 (run_when_done cs s1 Hdone)) in Hs.
    destruct Hs as [<-|[]]. rewrite Hlog in Ha.
    exact (False_ind _ (Hnone _ Ha eq_refl)). }
  rewrite (run_states_step OnResolve c1 cs (started host port instrument) _ eq_refl
             (on_resolve_succeeds c1 (started host port instrument) Hf1)) in Hs.
  destruct Hs as [<-|Hs]; [exact (False_ind _ (Hnone _ Ha eq_refl))|].
  destruct cs as [|c2 rest]; [destruct Hs|].
  destruct (failed (ec c2)) eqn:Hf2.
  { match type of Hs with
    | In s (run_states _ ?s1) =>
        destruct (dispatch_failed OnConnect c2 s1 Hf2) as [s2 [Hd [Hdone Hlog]]];
        rewrite (run_states_step OnConnect c2 rest s1 s2 eq_refl Hd) in Hs
    end.
    rewrite (proj2 (run_when_done rest s2 Hdone)) in Hs.
    destruct Hs as [<-|[]]. rewrite Hlog in Ha.
    exact (False_ind _ (Hnone _ Ha eq_refl)). }
  match type of Hs with
  | In s (run_states _ ?s1) =>
      rewrite (run_states_step OnConnect c2 rest s1 _ eq_refl
                 (on_connect_succeeds c2 s1 Hf2)) in Hs
  end.
  set (H := host ++ ":" ++ to_string (ep_port (peer c2))).
  set (P := fun x : WebSocketClient =>
              control x <> Awaiting OnResolve /\ control x <> Awaiting OnConnect /\
              host_ x = H /\
              forall a t, In (Issue (ws_async_handshake a t)) (log x) ->
                          t = "/ws/api/v2" /\ a = H).
  match type of Hs with
  | In s (?s2 :: run_states rest _) => assert (P2 : P s2)
  end.
  { split; [discriminate|]. split; [discriminate|]. split; [reflexivity|].
    intros a' t' Hin. exfalso.
    assert (Hall : forallb (fun e => negb (is_kind KUpgrade e))
                     (log (started host port instrument
                           |> with_control Done |> emit (Complete OnResolve (ec c1))
                           |> emit (ExpiresAfter 30)
                           |> start (async_connect (results c1)) OnConnect
                           |> with_control Done |> emit (Complete OnConnect (ec c2))
                           |> emit (ExpiresAfter 30)
                           |> start ssl_async_handshake OnSslHandshake)) = true)
      by reflexivity.
    rewrite forallb_forall in Hall. specialize (Hall _ Hin). discriminate Hall. }
  assert (Hall : P s).
  { destruct Hs as [<-|Hs]; [exact P2|].
    assert (Hleft : forall c x, P x -> control x = Awaiting OnRead ->
                                P (left_by_reader c x)).
    { intros c x [_ [_ [Hh Hl]]] _. unfold left_by_reader.
      cbn [log control host_ emit with_control with_buffer].
      split; [discriminate|]. split; [discriminate|]. split; [exact Hh|].
      intros a' t' Hin. apply in_app_or in Hin. destruct Hin as [Hin|[Hin|[]]].
      - now apply Hl.
      - discriminate Hin. }
    pose proof (run_states_invariant P
                  (fun h c x x' Hx Hc Hd => upgrade_target_step H h c x x' Hx Hc Hd)
                  Hleft rest _ P2) as HF.
    rewrite Forall_forall in HF. now apply HF. }
  destruct Hall as [_ [_ [_ Hl]]].
  destruct (Hl a t Ha) as [-> ->]. split; [reflexivity|].
  exists c1, c2, rest. split; reflexivity.
Qed.

Lemma timeout_settings_step
  (h : bound_handler) (c : completion) (s s' : WebSocketClient) :
  timeout_settings (log s) = firstn (settings_made h) settings_in_order ->
  dispatch h c s = Returned s' ->
  match control s' with
  | Awaiting h' =>
      timeout_settings (log s') = firstn (settings_made h') settings_in_order
  | _ => timeout_settings (log s') = timeout_settings (log s)
  end.
Proof.
  intros Hn Hd.
  handler_paths Hd;
    cbn [log control emit start with_control with_host with_buffer];
    repeat rewrite timeout_settings_app; rewrite ?Hn; cbn; rewrite ?app_nil_r;
    solve [reflexivity | exact Hn].
Qed.

End Handshake.

(** Every WebSocket handshake the process starts asks for the path
    "/ws/api/v2" and names as host "www.deribit.com", a colon and the port of
    the endpoint that the connect reported (the second completion). *)
Theorem handshake_names_connected_port {J : JsonReader} :
  forall (env : environment) (a t : string),
    In (Issue (ws_async_handshake a t)) (output (main env)) ->
    t = "/ws/api/v2" /\
    exists c1 c2 rest,
      completions env = c1 :: c2 :: rest /\
      a = "www.deribit.com" ++ ":" ++ to_string (ep_port (peer c2)).
Proof.
  intros env a t Hin.
  destruct (main_output_from_session env _ Hin eq_refl) as [s [Hs He]];
    [intros text; discriminate|].
  exact (upgrade_target _ _ _ _ s a t Hs He).
Qed.

Lemma handshake_names_connected_port_witness :
  let env := {| stdin_line := "BTC-PERPETUAL"; throws := never_throws;
                completions := handshaken |} in
  In (Issue (ws_async_handshake "www.deribit.com:443" "/ws/api/v2"))
     (output (@main small_reader env)) /\
  "/ws/api/v2" = "/ws/api/v2".
Proof.
  assert (Hin : In (Issue (ws_async_handshake "www.deribit.com:443" "/ws/api/v2"))
                  (output (@main small_reader
                             {| stdin_line := "BTC-PERPETUAL"; throws := never_throws;
                                completions := handshaken |})))
    by (vm_compute; tauto).
  split; [exact Hin|].
  exact (proj1 (@handshake_names_connected_port small_reader _ _ _ Hin)).
Defined.

(** In every execution the timeout settings made so far, those of the
    lowest layer and the option of the WebSocket layer alike, are the first
    few of these four, in this order: [expires_after] 30 seconds when the
    connect is started, [expires_after] 30 seconds again when the TLS
    handshake is started, then [expires_never] and
    [set_option(timeout::suggested(client))] when the WebSocket handshake is
    started.  No handler makes a setting after that: while the session waits
    for the WebSocket handshake, the write or a read, exactly these four have
    been made. *)
Theorem timeouts_set_in_order {J : JsonReader} :
  forall (cs : list completion) (host port instrument : string) (s : WebSocketClient),
    In s (visited cs host port instrument) ->
    (exists n, timeout_settings (log s) = firstn n settings_in_order) /\
    (stage_of s = Resolving -> timeout_settings (log s) = []) /\
    (stage_of s = Connecting -> timeout_settings (log s) = [expires_after 30]) /\
    (stage_of s = SecureHandshaking ->
     timeout_settings (log s) = [expires_after 30; expires_after 30]) /\
    (stage_of s = ProtocolHandshaking \/ stage_of s = Subscribing
     \/ stage_of s = Streaming ->
     timeout_settings (log s)
     = [expires_after 30; expires_after 30; expires_never; suggested client]).
Proof.
  intros cs host port instrument s Hin.
  assert (Hinv : (exists n, timeout_settings (log s) = firstn n settings_in_order) /\
                 forall h, control s = Awaiting h ->
                           timeout_settings (log s)
                           = firstn (settings_made h) settings_in_order).
  { revert cs s Hin. apply visited_invariant.
    - split; [exists 0; reflexivity|].
      intros h Hh. cbn in Hh. injection Hh as <-. reflexivity.
    - intros h c s s' [[n Hn] Hs] Hc Hd.
      pose proof (timeout_settings_step h c s s' (Hs h Hc) Hd) as Hstep.
      destruct (control s') as [|h'|] eqn:Hc'.
      + split; [exists n; now rewrite Hstep | discriminate].
      + split; [eexists; exact Hstep|].
        intros h0 Hh0. injection Hh0 as <-. exact Hstep.
      + split; [exists n; now rewrite Hstep | discriminate].
    - intros c s [[n Hn] _] _. unfold left_by_reader.
      cbn [log control emit with_control with_buffer].
      rewrite timeout_settings_app. cbn. rewrite app_nil_r.
      split; [exists n; exact Hn | discriminate]. }
  destruct Hinv as [Hn Hs]. split; [exact Hn|].
  unfold stage_of.
  destruct (control s) as [|[]|] eqn:Hc;
    repeat split; try (intros H; discriminate H);
    try (intros [H|[H|H]]; discriminate H);
    intros _; exact (Hs _ eq_refl).
Qed.

Lemma timeouts_set_in_order_witness :
  let s := session_of (@io_context_run small_reader
                         (handshaken ++ [completed ""]) btc_session) in
  (In s (@visited small_reader (handshaken ++ [completed ""])
           "www.deribit.com" "443" "BTC-PERPETUAL") /\
   stage_of s = Streaming) /\
  timeout_settings (log s)
  = [expires_after 30; expires_after 30; expires_never; suggested client].
Proof.
  assert (Hin : In (session_of (@io_context_run small_reader
                                  (handshaken ++ [completed ""]) btc_session))
                  (@visited small_reader (handshaken ++ [completed ""])
                     "www.deribit.com" "443" "BTC-PERPETUAL"))
    by (vm_compute; tauto).
  split; [split; [exact Hin | reflexivity]|].
  exact (proj2 (proj2 (proj2 (proj2
           (@timeouts_set_in_order small_reader (handshaken ++ [completed ""])
              "www.deribit.com" "443" "BTC-PERPETUAL" _ Hin))))
           (or_intror (or_intror eq_refl))).
Defined.

(* ------------------------------------------------------------------ *)
(** ** The read loop over many frames *)

Section Frames.

Context {J : JsonReader}.

Lemma on_read_turn (c : completion) (s : WebSocketClient) :
  control s = Awaiting OnRead -> buffer_ s = "" -> failed (ec c) = false ->
  reader_throws_on (received c) = false ->
  exists s',
    dispatch OnRead c s = Returned s' /\
    control s' = Awaiting OnRead /\ buffer_ s' = "" /\
    log s' = (log s ++ pump_turn c)%list.
Proof.
  intros Hc Hb Hf Hr. unfold reader_throws_on in Hr.
  unfold dispatch, on_read, pump_turn, printed_for. rewrite Hf.
  cbn [buffer_ with_buffer emit with_control]. rewrite Hb.
  change ("" ++ received c) with (received c).
  destruct (Reader_parse (received c)); [| |discriminate Hr];
    (eexists; split; [reflexivity|]); unfold clear_and_read;
    cbn [log control buffer_ emit start with_control with_buffer read];
    rewrite consume_all, <- !app_assoc; repeat split; reflexivity.
Qed.

Lemma read_loop_turns (frames : list completion) :
  forall rest s,
    control s = Awaiting OnRead -> buffer_ s = "" ->
    (forall c, In c frames -> failed (ec c) = false) ->
    (forall c, In c frames -> reader_throws_on (received c) = false) ->
    exists s',
      io_context_run (frames ++ rest) s = io_context_run rest s' /\
      control s' = Awaiting OnRead /\ buffer_ s' = "" /\
      log s' = (log s ++ flat_map pump_turn frames)%list.
Proof.
  induction frames as [|c frames IH]; intros rest s Hc Hb Hall Hret.
  - exists s. simpl. rewrite app_nil_r. repeat split; assumption.
  - destruct (on_read_turn c s Hc Hb (Hall c (or_introl eq_refl))
                (Hret c (or_introl eq_refl)))
      as [s1 [Hd [Hc1 [Hb1 Hlog1]]]].
    destruct (IH rest s1 Hc1 Hb1 (fun x Hx => Hall x (or_intror Hx))
                (fun x Hx => Hret x (or_intror Hx)))
      as [s' [Hr [Hc' [Hb' Hlog']]]].
    exists s'. simpl. rewrite Hc, Hd. split; [exact Hr|]. split; [exact Hc'|].
    split; [exact Hb'|]. rewrite Hlog', Hlog1, <- app_assoc. reflexivity.
Qed.

End Frames.

(** Once the session is streaming, frames that arrive without a transport
    error are handled one by one, in order of arrival.  As long as the reader
    throws on none of them, each frame adds to the log the handler call, one
    line (the pretty-printed message if the frame parses, the diagnostic with
    the raw text if the reader returns false) and the next read; what is
    printed for a frame depends on that frame alone, and the loop is still
    reading afterwards.  At the first frame the reader throws on, the
    exception leaves the loop: the frames before it have been handled as
    said, the call for that frame is the last entry of the log, and nothing
    that follows is read. *)
Theorem read_loop_prints_each_frame {J : JsonReader} :
  forall (cs : list completion) (host port instrument : string)
         (s : WebSocketClient) (frames : list completion),
    In s (visited cs host port instrument) ->
    control s = Awaiting OnRead ->
    (forall c, In c frames -> failed (ec c) = false) ->
    ((forall c, In c frames -> reader_throws_on (received c) = false) ->
     exists s',
       io_context_run frames s = Waiting s' /\
       stage_of s' = Streaming /\
       log s' = (log s ++ flat_map pump_turn frames)%list) /\
    (forall pre c post what,
        frames = (pre ++ c :: post)%list ->
        (forall x, In x pre -> reader_throws_on (received x) = false) ->
        Reader_parse (received c) = ReaderThrew what ->
        exists s',
          io_context_run frames s = Threw what s' /\
          log s' = (log s ++ flat_map pump_turn pre ++ [Complete OnRead (ec c)])%list).
Proof.
  intros cs host port instrument s frames Hin Hc Hall.
  destruct (visited_reads_start_empty cs host port instrument s Hin) as [_ Hbuf].
  assert (Hb : buffer_ s = "") by (apply Hbuf; rewrite Hc; discriminate).
  split.
  - intros Hret.
    destruct (read_loop_turns frames [] s Hc Hb Hall Hret) as [s' [Hr [Hc' [_ Hlog]]]].
    rewrite app_nil_r in Hr. exists s'. split.
    + rewrite Hr. simpl. now rewrite Hc'.
    + split; [unfold stage_of; now rewrite Hc' | exact Hlog].
  - intros pre c post what -> Hret Hp.
    destruct (read_loop_turns pre (c :: post) s Hc Hb
                (fun x Hx => Hall x (in_or_app _ _ _ (or_introl Hx))) Hret)
      as [s1 [Hr [Hc1 [Hb1 Hlog1]]]].
    exists (left_by_reader c s1). rewrite Hr. simpl. rewrite Hc1.
    rewrite (dispatch_throws c s1 what
               (Hall c (in_or_app pre (c :: post) c (or_intror (in_eq c post))))
               Hb1 Hp).
    split; [reflexivity|]. unfold left_by_reader.
    cbn [log emit with_control with_buffer]. rewrite Hlog1, <- app_assoc. reflexivity.
Qed.

Lemma read_loop_prints_each_frame_witness :
  let s := session_of (@io_context_run small_reader
                         (handshaken ++ [completed ""]) btc_session) in
  let frames := [completed "oops"; completed "{}"] in
  (In s (@visited small_reader (handshaken ++ [completed ""])
           "www.deribit.com" "443" "BTC-PERPETUAL") /\
   control s = Awaiting OnRead /\
   (forall c, In c frames -> failed (ec c) = false) /\
   (forall c, In c frames -> @reader_throws_on small_reader (received c) = false)) /\
  exists s',
    @io_context_run small_reader frames s = Waiting s' /\
    stage_of s' = Streaming /\
    log s' = (log s ++ flat_map (@pump_turn small_reader) frames)%list.
Proof.
  assert (Hin : In (session_of (@io_context_run small_reader
                                  (handshaken ++ [completed ""]) btc_session))
                  (@visited small_reader (handshaken ++ [completed ""])
                     "www.deribit.com" "443" "BTC-PERPETUAL"))
    by (vm_compute; tauto).
  assert (Hall : forall c, In c [completed "oops"; completed "{}"] ->
                           failed (ec c) = false)
    by (intros c [<-|[<-|[]]]; reflexivity).
  assert (Hret : forall c, In c [completed "oops"; completed "{}"] ->
                           @reader_throws_on small_reader (received c) = false)
    by (intros c [<-|[<-|[]]]; reflexivity).
  split; [split; [exact Hin | split; [reflexivity | split; [exact Hall | exact Hret]]]|].
  exact (proj1 (@read_loop_prints_each_frame small_reader
                  (handshaken ++ [completed ""]) "www.deribit.com" "443"
                  "BTC-PERPETUAL" _ [completed "oops"; completed "{}"] Hin eq_refl Hall)
           Hret).
Defined.

(* ------------------------------------------------------------------ *)
(** ** Which stage a failure is reported for, and when the process ends *)

Lemma count_issues_preamble (out : list event) :
  forallb preamble out = true -> count_issues out = 0.
Proof.
  induction out as [|e r IH]; [reflexivity|].
  simpl. intros H. apply andb_true_iff in H. destruct H as [He Hr].
  destruct e; try discriminate He; exact (IH Hr).
Qed.

Lemma preamble_setup (steps : list setup_step) :
  forallb preamble (map Setup steps) = true.
Proof. induction steps as [|x r IH]; [reflexivity | exact IH]. Qed.

Lemma perform_until (throws : setup_step -> option string)
  (pre : list setup_step) (st : setup_step) (post : list setup_step) (what : string) :
  (forall x, In x pre -> throws x = None) -> throws st = Some what ->
  forall out,
    perform throws (pre ++ st :: post) out = inl (what, (out ++ map Setup pre)%list).
Proof.
  intros Hpre Hst. induction pre as [|x pre IH]; intros out; simpl.
  - rewrite Hst, app_nil_r. reflexivity.
  - rewrite (Hpre x (or_introl eq_refl)).
    rewrite IH by (intros y Hy; apply Hpre; now right).
    rewrite <- app_assoc. reflexivity.
Qed.

(** With the set-up done, if the first completions are clear, the reader
    throws on none of the payloads read among them (those from the sixth
    completion on), and the next completion carries an error, the process
    ends with [EXIT_SUCCESS] and the last thing it puts out is the report for
    the stage that completion belongs to, by position: "resolve", "connect",
    "ssl_handshake", "handshake", "write", then "read" for every later one.
    It has started one operation per clear completion besides the resolve,
    and none after the failure. *)
Theorem failure_reported_for_its_stage {J : JsonReader} :
  forall (env : environment) (pre : list completion) (c : completion)
         (post : list completion),
    stdin_line env <> "" ->
    (forall st, throws env st = None) ->
    completions env = (pre ++ c :: post)%list ->
    (forall x, In x pre -> failed (ec x) = false) ->
    (forall x, In x (skipn 5 pre) -> reader_throws_on (received x) = false) ->
    failed (ec c) = true ->
    exit_status (main env) = Some EXIT_SUCCESS /\
    count_issues (output (main env)) = S (List.length pre) /\
    exists out,
      output (main env)
      = (out ++ [Cerr (label (handler_after (List.length pre)) ++ ": "
                         ++ ec_message (ec c) ++ LF)])%list.
Proof.
  intros env pre c post Hline Hthrows Hcs Hpre Hret Hf.
  destruct (main_after_setup env Hline Hthrows) as [out [Hout Hmain]].
  rewrite Hcs in Hmain.
  destruct (run_through_clear pre (c :: post)
              (started "www.deribit.com" "443" (stdin_line env)) 0
              eq_refl eq_refl Hpre Hret)
    as [s1 [Hr [Hc1 [_ Hn1]]]].
  rewrite Hr in Hmain. simpl in Hc1.
  destruct (dispatch_failed (handler_after (List.length pre)) c s1 Hf)
    as [s2 [Hd [Hdone Hlog]]].
  simpl in Hmain. rewrite Hc1, Hd in Hmain.
  rewrite (proj1 (run_when_done post s2 Hdone)) in Hmain.
  rewrite Hmain. cbn [exit_status output]. split; [reflexivity|]. split.
  - rewrite count_issues_app, (count_issues_preamble out Hout), Hlog.
    rewrite count_issues_app, Hn1. cbn. lia.
  - exists (out ++ log s1 ++ [Complete (handler_after (List.length pre)) (ec c)])%list.
    rewrite Hlog, <- !app_assoc. reflexivity.
Qed.

Lemma failure_reported_for_its_stage_witness :
  let env := {| stdin_line := "BTC-PERPETUAL"; throws := never_throws;
                completions := streaming_run |} in
  let pre := (handshaken ++ [completed ""; completed "{}"; completed "oops"])%list in
  (stdin_line env <> "" /\
   (forall st, throws env st = None) /\
   completions env = (pre ++ broke :: [])%list /\
   (forall x, In x pre -> failed (ec x) = false) /\
   (forall x, In x (skipn 5 pre) -> @reader_throws_on small_reader (received x) = false) /\
   failed (ec broke) = true) /\
  exit_status (@main small_reader env) = Some EXIT_SUCCESS /\
  count_issues (output (@main small_reader env)) = 8 /\
  exists out,
    output (@main small_reader env)
    = (out ++ [Cerr ("read" ++ ": " ++ "Connection timed out" ++ LF)])%list.
Proof.
  assert (H1 : "BTC-PERPETUAL" <> "") by discriminate.
  assert (H2 : forall st, never_throws st = None) by reflexivity.
  assert (H4 : forall x,
             In x (handshaken ++ [completed ""; completed "{}"; completed "oops"])%list ->
             failed (ec x) = false).
  { intros x Hx. unfold handshaken in Hx. simpl in Hx.
    repeat (destruct Hx as [<-|Hx]; [reflexivity|]). destruct Hx. }
  assert (H5 : forall x,
             In x (skipn 5 (handshaken
                              ++ [completed ""; completed "{}"; completed "oops"])%list) ->
             @reader_throws_on small_reader (received x) = false).
  { intros x Hx. unfold handshaken in Hx. simpl in Hx.
    repeat (destruct Hx as [<-|Hx]; [reflexivity|]). destruct Hx. }
  split; [repeat split; solve [assumption | reflexivity]|].
  exact (@failure_reported_for_its_stage small_reader
           {| stdin_line := "BTC-PERPETUAL"; throws := never_throws;
              completions := streaming_run |}
           (handshaken ++ [completed ""; completed "{}"; completed "oops"])%list
           broke [] H1 H2 eq_refl H4 H5 eq_refl).
Defined.

(** The process is still running (it has not exited) exactly when the
    instrument is not empty, no step of the set-up throws, every completion
    delivered so far is clear, and the reader has thrown on none of the
    payloads read (those of the completions from the sixth on). *)
Theorem runs_until_a_failure {J : JsonReader} :
  forall env : environment,
    exit_status (main env) = None <->
    stdin_line env <> "" /\
    (forall st, throws env st = None) /\
    (forall c, In c (completions env) -> failed (ec c) = false) /\
    (forall c, In c (skipn 5 (completions env)) ->
               reader_throws_on (received c) = false).
Proof.
  intros env. split.
  - intros Hexit.
    assert (Hline : stdin_line env <> "").
    { intros Hline. unfold main in Hexit. rewrite Hline in Hexit. discriminate Hexit. }
    assert (Hthrows : forall st, throws env st = None).
    { intros st. destruct (throws env st) as [what|] eqn:Hst; [exfalso | reflexivity].
      unfold main in Hexit. destruct (stdin_line env) as [|a r]; [discriminate Hexit|].
      pose proof (perform_spec (throws env) setup_steps
                    [Cout "Enter the instrument name (e.g., BTC-PERPETUAL): "] eq_refl)
        as Hp.
      destruct (perform (throws env) setup_steps _) as [[what' out]|out].
      - discriminate Hexit.
      - destruct Hp as [_ Hnone].
        rewrite (Hnone st (all_setup_steps st)) in Hst. discriminate Hst. }
    split; [exact Hline|]. split; [exact Hthrows|].
    destruct (main_after_setup env Hline Hthrows) as [out [_ Hmain]].
    destruct (run_classified (completions env)
                (started "www.deribit.com" "443" (stdin_line env)) 0 eq_refl eq_refl)
      as [[Hall [Hret _]]
         |[[pre [x [post [_ [_ [_ [_ [s' Hr]]]]]]]]
          |[pre [x [post [what [_ [_ [_ [_ [_ [_ [s' Hr]]]]]]]]]]]]].
    + split; [exact Hall | exact Hret].
    + rewrite Hr in Hmain. rewrite Hmain in Hexit. discriminate Hexit.
    + rewrite Hr in Hmain. rewrite Hmain in Hexit. discriminate Hexit.
  - intros [Hline [Hthrows [Hall Hret]]].
    destruct (main_after_setup env Hline Hthrows) as [out [_ Hmain]].
    destruct (run_through_clear (completions env) []
                (started "www.deribit.com" "443" (stdin_line env)) 0
                eq_refl eq_refl Hall Hret)
      as [s' [Hr [Hc' _]]].
    rewrite app_nil_r in Hr. rewrite Hr in Hmain. simpl in Hmain.
    rewrite Hc' in Hmain. rewrite Hmain. reflexivity.
Qed.

(** If a step of the set-up throws, [main] reports it once as "Error: " and
    the message, and exits with [EXIT_FAILURE]: the steps before it have been
    done, in order, and no operation has been started. *)
Theorem setup_exception_reported {J : JsonReader} :
  forall (env : environment) (pre : list setup_step) (st : setup_step)
         (post : list setup_step) (what : string),
    stdin_line env <> "" ->
    setup_steps = (pre ++ st :: post)%list ->
    (forall x, In x pre -> throws env x = None) ->
    throws env st = Some what ->
    exit_status (main env) = Some EXIT_FAILURE /\
    output (main env)
    = (Cout "Enter the instrument name (e.g., BTC-PERPETUAL): "
         :: map Setup pre ++ [Cerr ("Error: " ++ what ++ LF)])%list /\
    count_issues (output (main env)) = 0.
Proof.
  intros env pre st post what Hline Hsteps Hpre Hst.
  assert (Hmain : main env
                  = caught what
                      (Cout "Enter the instrument name (e.g., BTC-PERPETUAL): "
                         :: map Setup pre)).
  { unfold main. destruct (stdin_line env) as [|a r]; [congruence|].
    rewrite Hsteps, (perform_until _ pre st post what Hpre Hst). reflexivity. }
  rewrite Hmain. unfold caught. cbn [exit_status output].
  split; [reflexivity|]. split; [reflexivity|].
  rewrite count_issues_app. change (count_issues [Cerr ("Error: " ++ what ++ LF)]) with 0.
  rewrite Nat.add_0_r. apply count_issues_preamble.
  simpl. apply preamble_setup.
Qed.

Lemma setup_exception_reported_witness :
  let env := {| stdin_line := "BTC-PERPETUAL";
                throws := fun st => match st with
                                    | SetDefaultVerifyPaths => Some "set_default_verify_paths"
                                    | _ => None
                                    end;
                completions := handshaken |} in
  (stdin_line env <> "" /\
   setup_steps = ([NewIoContext; NewSslContext; SetVerifyMode]
                    ++ SetDefaultVerifyPaths :: [MakeClient])%list /\
   (forall x, In x [NewIoContext; NewSslContext; SetVerifyMode] -> throws env x = None) /\
   throws env SetDefaultVerifyPaths = Some "set_default_verify_paths") /\
  exit_status (@main small_reader env) = Some EXIT_FAILURE.
Proof.
  assert (H1 : "BTC-PERPETUAL" <> "") by discriminate.
  assert (H3 : forall x, In x [NewIoContext; NewSslContext; SetVerifyMode] ->
                         (fun st => match st with
                                    | SetDefaultVerifyPaths => Some "set_default_verify_paths"
                                    | _ => None
                                    end) x = None)
    by (intros x [<-|[<-|[<-|[]]]]; reflexivity).
  split; [repeat split; solve [assumption | reflexivity]|].
  exact (proj1 (@setup_exception_reported small_reader
                  {| stdin_line := "BTC-PERPETUAL";
                     throws := fun st => match st with
                                         | SetDefaultVerifyPaths =>
                                             Some "set_default_verify_paths"
                                         | _ => None
                                         end;
                     completions := handshaken |}
                  [NewIoContext; NewSslContext; SetVerifyMode] SetDefaultVerifyPaths
                  [MakeClient] "set_default_verify_paths" H1 eq_refl H3 eq_refl)).
Defined.

Lemma runs_until_a_failure_witness :
  let env := {| stdin_line := "BTC-PERPETUAL"; throws := never_throws;
                completions := (handshaken ++ [completed ""; completed "oops"])%list |} in
  exit_status (@main small_reader env) = None.
Proof.
  apply (proj2 (@runs_until_a_failure small_reader
                  {| stdin_line := "BTC-PERPETUAL"; throws := never_throws;
                     completions := (handshaken
                                       ++ [completed ""; completed "oops"])%list |})).
  split; [discriminate|]. split; [reflexivity|]. split.
  - intros c Hc. unfold handshaken in Hc. simpl in Hc.
    repeat (destruct Hc as [<-|Hc]; [reflexivity|]). destruct Hc.
  - intros c Hc. unfold handshaken in Hc. simpl in Hc.
    repeat (destruct Hc as [<-|Hc]; [reflexivity|]). destruct Hc.
Defined.

(* ------------------------------------------------------------------ *)
(** ** The frame for any plain instrument *)

Lemma append_assoc (a b c : string) : (a ++ b) ++ c = a ++ (b ++ c).
Proof. induction a as [|x a IH]; simpl; [reflexivity | now rewrite IH]. Qed.

Lemma quoted_body_app (a b : string) :
  Json.quoted_body (a ++ b) = Json.quoted_body a ++ Json.quoted_body b.
Proof.
  induction a as [|c r IH]; [reflexivity|].
  simpl. rewrite IH. now rewrite append_assoc.
Qed.

Lemma quoted_char_plain (c : ascii) :
  plain_char c = true -> Json.quoted_char c = String c EmptyString.
Proof.
  unfold plain_char, Json.quoted_char. intros H.
  apply andb_true_iff in H. destruct H as [H Hb].
  apply andb_true_iff in H. destruct H as [H Hq].
  apply andb_true_iff in H. destruct H as [Hlo Hhi].
  apply negb_true_iff in Hb. apply negb_true_iff in Hq. rewrite Hb, Hq.
  apply N.leb_le in Hlo.
  repeat match goal with
         | |- context [(?n =? ?k)%N] =>
             destruct (N.eqb_spec n k) as [E|_]; [rewrite E in Hlo; lia|]
         end.
  destruct (N.ltb_spec (N_of_ascii c) 32); [lia | reflexivity].
Qed.

Lemma quoted_body_plain (s : string) : plain s = true -> Json.quoted_body s = s.
Proof.
  induction s as [|c r IH]; [reflexivity|].
  simpl. intros H. apply andb_true_iff in H. destruct H as [Hc Hr].
  rewrite (quoted_char_plain c Hc), (IH Hr). reflexivity.
Qed.

Lemma frame_plain (i : string) :
  plain i = true -> Json.FastWriter_write (request_for i) = frame_with i.
Proof.
  intros H. unfold Json.FastWriter_write, request_for, frame_with.
  cbn -[Json.quoted_body String.append LF].
  unfold Json.valueToQuotedString.
  rewrite !quoted_body_app, (quoted_body_plain i H).
  cbn. repeat rewrite append_assoc. reflexivity.
Qed.

(** For every instrument made of printable ASCII characters other than the
    double quote and the backslash, every frame the process writes is the
    compact request with the instrument put into the channel name as it is,
    followed by a line feed; it is what [subscribe_to_orderbook] writes at
    every point of the execution. *)
Theorem plain_instrument_sent_verbatim {J : JsonReader} :
  forall env : environment,
    plain (stdin_line env) = true ->
    (forall m, In (Issue (async_write m)) (output (main env)) ->
               m = frame_with (stdin_line env)) /\
    (forall s,
        In s (visited (completions env) "www.deribit.com" "443" (stdin_line env)) ->
        subscribe_to_orderbook s
        = Returned (start (async_write (frame_with (stdin_line env))) OnWrite s)).
Proof.
  intros env Hplain. split.
  - intros m Hin.
    destruct (main_output_from_session env _ Hin eq_refl) as [s [Hs He]];
      [intros text; discriminate|].
    destruct (visited_instrument_and_writes _ _ _ _ _ Hs) as [_ Hw].
    rewrite <- (frame_plain _ Hplain). apply Hw. now apply written_In.
  - intros s Hs.
    destruct (visited_instrument_and_writes _ _ _ _ _ Hs) as [Hi _].
    rewrite subscribe_to_orderbook_writes, Hi, (frame_plain _ Hplain). reflexivity.
Qed.

Lemma plain_instrument_sent_verbatim_witness :
  let env := {| stdin_line := "ETH-PERPETUAL"; throws := never_throws;
                completions := handshaken |} in
  plain (stdin_line env) = true /\
  written (output (@main small_reader env)) = [frame_with "ETH-PERPETUAL"] /\
  (forall m, In (Issue (async_write m)) (output (@main small_reader env)) ->
             m = frame_with (stdin_line env)).
Proof.
  split; [reflexivity|]. split; [vm_compute; reflexivity|].
  exact (proj1 (@plain_instrument_sent_verbatim small_reader
                  {| stdin_line := "ETH-PERPETUAL"; throws := never_throws;
                     completions := handshaken |} eq_refl)).
Defined.

(* ------------------------------------------------------------------ *)
(** ** The trading menu *)

Lemma menu_loop_number (z : Z) (rest : list Menu.token) (at_end : bool)
  (out : list Menu.event) :
  Menu.main_loop (Menu.Number z :: rest) at_end out
  = if Menu.goes_on z
    then Menu.main_loop rest at_end ((out ++ Menu.display_menu) ++ [Menu.acted z])%list
    else if Menu.fits z
         then {| Menu.returned := Menu.Exited 0;
                 Menu.shown := (out ++ Menu.display_menu)%list |}
         else {| Menu.returned := Menu.ChoiceUnset;
                 Menu.shown :=
                   ((out ++ Menu.display_menu)
                      ++ [Menu.Shown ("Invalid choice! Please try again." ++ LF)])
                     ++ Menu.display_menu |}%list.
Proof.
  unfold Menu.goes_on. cbn [Menu.main_loop].
  destruct (Menu.fits z); [|reflexivity].
  destruct z as [|p|p]; try reflexivity.
  do 3 (try destruct p as [p|p|]); reflexivity.
Qed.

Lemma menu_acted (choice : Z) :
  (choice =? 7)%Z = false ->
  Menu.is_call (Menu.acted choice) = Menu.names_operation choice /\
  Menu.is_invalid_notice (Menu.acted choice) = negb (Menu.names_operation choice) /\
  Menu.is_menu_head (Menu.acted choice) = false.
Proof.
  destruct choice as [|p|p]; try (intros _; repeat split; reflexivity).
  do 3 (try destruct p as [p|p|]); intros H; try discriminate H;
    repeat split; reflexivity.
Qed.

Lemma menu_count_app (p : Menu.event -> bool) (l1 l2 : list Menu.event) :
  Menu.count p (l1 ++ l2) = Menu.count p l1 + Menu.count p l2.
Proof. unfold Menu.count. rewrite filter_app, length_app. reflexivity. Qed.

Lemma menu_count_one (p : Menu.event -> bool) (e : Menu.event) :
  Menu.count p [e] = if p e then 1 else 0.
Proof. unfold Menu.count. simpl. destruct (p e); reflexivity. Qed.

(** How the run stands is decided by the token the loop stops at. *)
Lemma menu_loop_returned (tokens : list Menu.token) (at_end : bool) :
  forall out,
    Menu.returned (Menu.main_loop tokens at_end out)
    = match Menu.stopped_at tokens with
      | None => if at_end then Menu.ChoiceUnset else Menu.AwaitingInput
      | Some tk => if Menu.fails tk then Menu.ChoiceUnset else Menu.Exited 0
      end.
Proof.
  induction tokens as [|tk tokens IH]; intros out; [reflexivity|].
  destruct tk as [z|]; [|reflexivity].
  rewrite menu_loop_number. cbn [Menu.stopped_at].
  destruct (Menu.goes_on z); [apply IH|].
  cbn [Menu.fails]. destruct (Menu.fits z); reflexivity.
Qed.

(** The input splits into the choices acted on and what follows them. *)
Lemma menu_stopped_split (tokens : list Menu.token) :
  forallb Menu.goes_on (Menu.acted_on tokens) = true /\
  match Menu.stopped_at tokens with
  | Some tk =>
      (forall z, tk = Menu.Number z -> Menu.goes_on z = false) /\
      exists post, tokens = (map Menu.Number (Menu.acted_on tokens) ++ tk :: post)%list
  | None => tokens = map Menu.Number (Menu.acted_on tokens)
  end.
Proof.
  induction tokens as [|tk tokens [IH1 IH2]].
  - split; reflexivity.
  - destruct tk as [z|]; cbn [Menu.acted_on Menu.stopped_at].
    + destruct (Menu.goes_on z) eqn:E.
      * split; [simpl; now rewrite E, IH1|].
        destruct (Menu.stopped_at tokens) as [tk|].
        -- destruct IH2 as [H [post Hp]]. split; [exact H|].
           exists post. simpl. now rewrite <- Hp.
        -- simpl. now rewrite <- IH2.
      * split; [reflexivity|]. split.
        -- intros z' Hz. injection Hz as <-. exact E.
        -- exists tokens. reflexivity.
    + split; [reflexivity|]. split; [intros z Hz; discriminate Hz|].
      exists tokens. reflexivity.
Qed.

Lemma menu_stopped_app (pre : list Z) (rest : list Menu.token) :
  forallb Menu.goes_on pre = true ->
  Menu.stopped_at (map Menu.Number pre ++ rest) = Menu.stopped_at rest /\
  Menu.acted_on (map Menu.Number pre ++ rest) = (pre ++ Menu.acted_on rest)%list.
Proof.
  induction pre as [|z pre IH]; intros H; [split; reflexivity|].
  simpl in H. apply andb_true_iff in H. destruct H as [Hz Hpre].
  destruct (IH Hpre) as [IH1 IH2].
  simpl. rewrite Hz, IH1, IH2. split; reflexivity.
Qed.

Lemma menu_loop_cut (pre : list Menu.token) :
  forall (post : list Menu.token) (at_end : bool) (out : list Menu.event),
    Menu.main_loop (pre ++ Menu.Number 7 :: post) at_end out
    = Menu.main_loop (pre ++ [Menu.Number 7]) at_end out.
Proof.
  induction pre as [|tk pre IH]; intros post at_end out.
  - reflexivity.
  - destruct tk as [z|]; [|reflexivity].
    rewrite <- !app_comm_cons, !menu_loop_number.
    destruct (Menu.goes_on z); [apply IH | reflexivity].
Qed.

Lemma menu_loop_counts (tokens : list Menu.token) (at_end : bool) :
  forall out,
    let extra := if Menu.stopped_by_failure tokens then 1 else 0 in
    Menu.count Menu.is_call (Menu.shown (Menu.main_loop tokens at_end out))
    = Menu.count Menu.is_call out
      + List.length (filter Menu.names_operation (Menu.acted_on tokens)) /\
    Menu.count Menu.is_invalid_notice (Menu.shown (Menu.main_loop tokens at_end out))
    = Menu.count Menu.is_invalid_notice out
      + List.length (filter (fun c => negb (Menu.names_operation c))
                       (Menu.acted_on tokens))
      + extra /\
    Menu.count Menu.is_menu_head (Menu.shown (Menu.main_loop tokens at_end out))
    = Menu.count Menu.is_menu_head out + S (List.length (Menu.acted_on tokens))
      + extra.
Proof.
  unfold Menu.stopped_by_failure.
  induction tokens as [|tk tokens IH]; intros out.
  - simpl. rewrite !menu_count_app. cbn. repeat split; lia.
  - destruct tk as [z|].
    + rewrite menu_loop_number. cbn [Menu.acted_on Menu.stopped_at].
      destruct (Menu.goes_on z) eqn:E.
      * assert (E7 : (z =? 7)%Z = false).
        { unfold Menu.goes_on in E. apply andb_true_iff in E.
          destruct E as [_ E]. now apply negb_true_iff in E. }
        destruct (menu_acted z E7) as [Hc [Hi Hm]].
        destruct (IH ((out ++ Menu.display_menu) ++ [Menu.acted z])%list)
          as [H1 [H2 H3]].
        rewrite H1, H2, H3, !menu_count_app, !menu_count_one, Hc, Hi, Hm.
        cbn [filter].
        destruct (Menu.names_operation z); cbn; repeat split; lia.
      * cbn [Menu.fails]. destruct (Menu.fits z);
          cbn [Menu.shown negb filter List.length];
          rewrite !menu_count_app; cbn; repeat split; lia.
    + cbn [Menu.main_loop Menu.acted_on Menu.stopped_at Menu.fails Menu.shown
             filter List.length].
      rewrite !menu_count_app. cbn. repeat split; lia.
Qed.

(** The menu program returns, and then with status 0, exactly when the input
    holds a 7 with nothing before it but integers that fit [int] and are not
    7.  It is waiting exactly when the input is still open and holds only
    such integers.  In every other case (a number out of the range of [int]
    or text that is no integer comes first, or the input ends) the loop
    reaches a turn on which [choice] has not been set.  What follows the
    first 7 is never read. *)
Theorem menu_exits_on_seven :
  forall (tokens : list Menu.token) (at_end : bool),
    let clean pre := forallb Menu.goes_on pre = true in
    (forall status,
        Menu.returned (Menu.main tokens at_end) = Menu.Exited status <->
        status = 0%Z /\
        exists pre post,
          tokens = (map Menu.Number pre ++ Menu.Number 7 :: post)%list /\ clean pre) /\
    (Menu.returned (Menu.main tokens at_end) = Menu.AwaitingInput <->
     at_end = false /\ exists pre, tokens = map Menu.Number pre /\ clean pre) /\
    (Menu.returned (Menu.main tokens at_end) = Menu.ChoiceUnset <->
     (at_end = true /\ exists pre, tokens = map Menu.Number pre /\ clean pre)
     \/ exists pre bad post,
          tokens = (map Menu.Number pre ++ bad :: post)%list /\ clean pre /\
          Menu.fails bad = true) /\
    (forall pre post,
        tokens = (pre ++ Menu.Number 7 :: post)%list ->
        Menu.main tokens at_end = Menu.main (pre ++ [Menu.Number 7]) at_end).
Proof.
  intros tokens at_end clean. unfold Menu.main. rewrite menu_loop_returned.
  destruct (menu_stopped_split tokens) as [Hclean Hsplit].
  assert (Hnone : forall pre, tokens = map Menu.Number pre -> clean pre ->
                              Menu.stopped_at tokens = None).
  { intros pre -> Hpre.
    rewrite <- (app_nil_r (map Menu.Number pre)).
    now rewrite (proj1 (menu_stopped_app pre [] Hpre)). }
  assert (Hsome : forall pre tk post,
             tokens = (map Menu.Number pre ++ tk :: post)%list -> clean pre ->
             (forall z, tk = Menu.Number z -> Menu.goes_on z = false) ->
             Menu.stopped_at tokens = Some tk).
  { intros pre tk post -> Hpre Htk.
    rewrite (proj1 (menu_stopped_app pre (tk :: post) Hpre)).
    destruct tk as [z|]; [|reflexivity].
    cbn [Menu.stopped_at]. now rewrite (Htk z eq_refl). }
  assert (Hfails : forall tk, Menu.fails tk = true ->
                              forall z, tk = Menu.Number z -> Menu.goes_on z = false).
  { intros tk Hf z ->. unfold Menu.goes_on. cbn [Menu.fails] in Hf.
    apply negb_true_iff in Hf. now rewrite Hf. }
  split; [|split; [|split]].
  - intros status. split.
    + intros H. destruct (Menu.stopped_at tokens) as [tk|] eqn:Hs.
      * destruct Hsplit as [Hgo [post Hp]].
        destruct (Menu.fails tk) eqn:Hf; [discriminate H|].
        injection H as <-. split; [reflexivity|].
        destruct tk as [z|]; [|discriminate Hf].
        cbn [Menu.fails] in Hf. apply negb_false_iff in Hf.
        pose proof (Hgo z eq_refl) as Hz. unfold Menu.goes_on in Hz.
        rewrite Hf in Hz. cbn in Hz. apply negb_false_iff in Hz.
        apply Z.eqb_eq in Hz. subst z.
        exists (Menu.acted_on tokens), post. split; [exact Hp | exact Hclean].
      * destruct at_end; discriminate H.
    + intros [-> [pre [post [Hp Hpre]]]].
      rewrite (Hsome pre (Menu.Number 7) post Hp Hpre)
        by (intros z Hz; injection Hz as <-; reflexivity).
      reflexivity.
  - split.
    + intros H. destruct (Menu.stopped_at tokens) as [tk|] eqn:Hs.
      * destruct (Menu.fails tk); discriminate H.
      * destruct at_end; [discriminate H|]. split; [reflexivity|].
        exists (Menu.acted_on tokens). split; [exact Hsplit | exact Hclean].
    + intros [-> [pre [Hp Hpre]]]. now rewrite (Hnone pre Hp Hpre).
  - split.
    + intros H. destruct (Menu.stopped_at tokens) as [tk|] eqn:Hs.
      * destruct Hsplit as [Hgo [post Hp]].
        destruct (Menu.fails tk) eqn:Hf; [|discriminate H].
        right. exists (Menu.acted_on tokens), tk, post.
        split; [exact Hp|]. split; [exact Hclean | exact Hf].
      * destruct at_end; [|discriminate H]. left. split; [reflexivity|].
        exists (Menu.acted_on tokens). split; [exact Hsplit | exact Hclean].
    + intros [[-> [pre [Hp Hpre]]]|[pre [bad [post [Hp [Hpre Hf]]]]]].
      * now rewrite (Hnone pre Hp Hpre).
      * rewrite (Hsome pre bad post Hp Hpre (Hfails bad Hf)). now rewrite Hf.
  - intros pre post ->. apply menu_loop_cut.
Qed.

Lemma menu_exits_on_seven_witness :
  let tokens := [Menu.Number 2; Menu.Number 9; Menu.Number 7; Menu.Number 1] in
  tokens = ([Menu.Number 2; Menu.Number 9] ++ Menu.Number 7 :: [Menu.Number 1])%list /\
  Menu.main tokens true = Menu.main [Menu.Number 2; Menu.Number 9; Menu.Number 7] true /\
  Menu.returned (Menu.main tokens true) = Menu.Exited 0.
Proof.
  split; [reflexivity|]. split.
  - exact (proj2 (proj2 (proj2
             (menu_exits_on_seven
                [Menu.Number 2; Menu.Number 9; Menu.Number 7; Menu.Number 1] true)))
             [Menu.Number 2; Menu.Number 9] [Menu.Number 1] eq_refl).
  - reflexivity.
Defined.

(** The menu program acts once on every choice it extracts before the first
    7 and before the first token that fails to extract: a choice from 1 to 6
    makes exactly one call to the API, any other prints exactly one "Invalid
    choice" line and calls nothing, and the menu is shown once before each of
    them and once more before the token the loop stops at.  A token that
    fails (a number out of the range of [int], or text that is no integer)
    adds one "Invalid choice" line and one more menu, up to the turn on which
    [choice] is read without having been set; the output of the turns after
    that is not counted. *)
Theorem menu_acts_once_per_choice :
  forall (tokens : list Menu.token) (at_end : bool),
    let acted_on := Menu.acted_on tokens in
    let extra := if Menu.stopped_by_failure tokens then 1 else 0 in
    Menu.count Menu.is_call (Menu.shown (Menu.main tokens at_end))
    = List.length (filter Menu.names_operation acted_on) /\
    Menu.count Menu.is_invalid_notice (Menu.shown (Menu.main tokens at_end))
    = List.length (filter (fun c => negb (Menu.names_operation c)) acted_on) + extra /\
    Menu.count Menu.is_menu_head (Menu.shown (Menu.main tokens at_end))
    = S (List.length acted_on) + extra.
Proof.
  intros tokens at_end acted_on extra. unfold Menu.main.
  destruct (menu_loop_counts tokens at_end [Menu.ApiMade]) as [H1 [H2 H3]].
  rewrite H1, H2, H3. repeat split; reflexivity.
Qed.

Lemma menu_acts_once_per_choice_witness :
  let tokens := [Menu.Number 2; Menu.Number 9; Menu.Number 2147483648; Menu.Number 7] in
  Menu.returned (Menu.main tokens false) = Menu.ChoiceUnset /\
  Menu.count Menu.is_call (Menu.shown (Menu.main tokens false)) = 1 /\
  Menu.count Menu.is_invalid_notice (Menu.shown (Menu.main tokens false)) = 2 /\
  Menu.count Menu.is_menu_head (Menu.shown (Menu.main tokens false)) = 4.
Proof.
  split; [reflexivity|].
  exact (menu_acts_once_per_choice
           [Menu.Number 2; Menu.Number 9; Menu.Number 2147483648; Menu.Number 7] false).
Defined.
